(** * Stepper-motor tutorial (AzureMotorTest/main.c): model and properties

    The program is a single-threaded event loop.  Two periodic timers are
    multiplexed on one epoll descriptor; the button timer runs
    [ButtonTimerEventHandler], the motor timer runs
    [StepperMotorEventHandler].  Both handlers share the file-scope
    variables of main.c.

    The embedding is shallow: the file-scope variables form the record
    [Globals], a C function is a command [Cmd A] that transforms the
    globals, returns a value and emits the list of actions it performed,
    and everything the outside world decides (return values of the applibs
    and epoll/timerfd calls, delivery of SIGTERM) is an explicit input. *)

From Stdlib Require Import ZArith String List Bool Lia.
Import ListNotations.
Open Scope string_scope.
Open Scope list_scope.
Open Scope Z_scope.

(** ** Data *)

(** applibs/gpio.h: the two levels of a GPIO line. *)
Inductive GPIO_Value_Type := GPIO_Value_Low | GPIO_Value_High.

(** The nine file-scope descriptor variables of main.c (lines 23-27 and
    37-40), in declaration order.  A peripheral is addressed everywhere
    through the variable that holds its descriptor. *)
Inductive Handle :=
| buttonPollTimerFd | epollFd | button_A_GpioFd | greenLEDFd
| stepperMotorTimerFd | IN4 | IN3 | IN2 | IN1.

(** The two [EventData] objects (lines 150 and 153). *)
Inductive EventData := buttonEventData | motorTurnEventData.

(** Board pin names of avnet_mt3620_sk.h used by the program; the header
    is not part of the sources, the names are kept symbolic. *)
Inductive Pin :=
| AVNET_MT3620_SK_USER_BUTTON_A | AVNET_MT3620_SK_USER_LED_GREEN
| AVNET_MT3620_SK_GPIO31 | AVNET_MT3620_SK_GPIO32
| AVNET_MT3620_SK_GPIO33 | AVNET_MT3620_SK_GPIO34.

(** The four acquisition calls of [InitPeripheralsAndHandlers] with the
    arguments that matter (timer period as [tv_nsec]). *)
Inductive OpenCall :=
| CreateEpollFd
| GPIO_OpenAsInput (pin : Pin)
| GPIO_OpenAsOutput (pin : Pin) (initial : GPIO_Value_Type)
| CreateTimerFdAndAddToEpoll (tv_nsec : Z) (ed : EventData).

(** Actions of the program, in the order they are performed. [EvLatch]
    marks an execution of the assignment [terminationRequired = true]. *)
Inductive Event :=
| EvLog (msg : string)
| EvSetValue (h : Handle) (v : GPIO_Value_Type)
| EvAcquire (h : Handle) (call : OpenCall) (r : Z)
| EvClose (h : Handle) (name : string) (status : Z)
| EvDispatch (ed : EventData)
| EvLatch.

(** The file-scope state (lines 23-40). *)
Record Globals := mkGlobals {
  fd : Handle -> Z;
  terminationRequired : bool;
  buttonState : GPIO_Value_Type;
  isMotorTurning : bool;
  stepNumber : Z
}.

(** The static initialisers. *)
Definition initial_globals : Globals :=
  {| fd := fun _ => -1;
     terminationRequired := false;
     buttonState := GPIO_Value_High;
     isMotorTurning := false;
     stepNumber := 0 |}.

Definition Handle_eqb (a b : Handle) : bool :=
  match a, b with
  | buttonPollTimerFd, buttonPollTimerFd | epollFd, epollFd
  | button_A_GpioFd, button_A_GpioFd | greenLEDFd, greenLEDFd
  | stepperMotorTimerFd, stepperMotorTimerFd
  | IN4, IN4 | IN3, IN3 | IN2, IN2 | IN1, IN1 => true
  | _, _ => false
  end.

Definition GPIO_Value_eqb (a b : GPIO_Value_Type) : bool :=
  match a, b with
  | GPIO_Value_Low, GPIO_Value_Low | GPIO_Value_High, GPIO_Value_High => true
  | _, _ => false
  end.

(** [int] is 32 bits wide on the target; [wrap_int] is the wrap-around of
    [stepNumber++]. *)
Definition wrap_int (z : Z) : Z := (z + 2 ^ 31) mod 2 ^ 32 - 2 ^ 31.

(** ** Commands *)

Definition Cmd (A : Type) : Type := Globals -> A * Globals * list Event.

Definition ret {A} (a : A) : Cmd A := fun g => (a, g, []).

Definition bind {A B} (c : Cmd A) (k : A -> Cmd B) : Cmd B :=
  fun g =>
    let '(a, g1, t1) := c g in
    let '(b, g2, t2) := k a g1 in
    (b, g2, t1 ++ t2).

Notation "x <- c1 ;; c2" := (bind c1 (fun x => c2))
  (at level 61, c1 at next level, right associativity).
Notation "c1 ;; c2" := (bind c1 (fun _ => c2))
  (at level 61, right associativity).
Notation "a !=? b" := (negb (Z.eqb a b)) (at level 70).

Definition read {A} (f : Globals -> A) : Cmd A := fun g => (f g, g, []).
Definition emit (e : Event) : Cmd unit := fun g => (tt, g, [e]).

Definition result_of {A} (r : A * Globals * list Event) : A := fst (fst r).
Definition globals_of {A} (r : A * Globals * list Event) : Globals :=
  snd (fst r).
Definition trace_of {A} (r : A * Globals * list Event) : list Event := snd r.

(** Assignments to the file-scope variables. *)
Definition assign_fd (h : Handle) (z : Z) : Cmd unit :=
  fun g => (tt, {| fd := fun h' => if Handle_eqb h' h then z else fd g h';
                   terminationRequired := terminationRequired g;
                   buttonState := buttonState g;
                   isMotorTurning := isMotorTurning g;
                   stepNumber := stepNumber g |}, []).

Definition assign_isMotorTurning (b : bool) : Cmd unit :=
  fun g => (tt, {| fd := fd g;
                   terminationRequired := terminationRequired g;
                   buttonState := buttonState g;
                   isMotorTurning := b;
                   stepNumber := stepNumber g |}, []).

Definition assign_stepNumber (z : Z) : Cmd unit :=
  fun g => (tt, {| fd := fd g;
                   terminationRequired := terminationRequired g;
                   buttonState := buttonState g;
                   isMotorTurning := isMotorTurning g;
                   stepNumber := z |}, []).

(** [terminationRequired = true;] -- the only assignment to the latch that
    occurs in main.c. *)
Definition set_terminationRequired : Cmd unit :=
  fun g => (tt, {| fd := fd g;
                   terminationRequired := true;
                   buttonState := buttonState g;
                   isMotorTurning := isMotorTurning g;
                   stepNumber := stepNumber g |}, [EvLatch]).

(** ** The outside world *)

(** What the outside world answers during one handler invocation: the
    status of [ConsumeTimerFdEvent], the status of [GPIO_GetValue] and the
    level it stores, and the status of [GPIO_SetValue] on each line.  A
    handler that returns early never asks for the later answers. *)
Record TimerIO := mkTimerIO {
  consume_status : Z;
  get_status : Z;
  get_value : GPIO_Value_Type;
  set_status : Handle -> Z
}.

Definition ConsumeTimerFdEvent (io : TimerIO) (h : Handle) : Cmd Z :=
  ret (consume_status io).

Definition GPIO_GetValue (io : TimerIO) (h : Handle)
  : Cmd (Z * GPIO_Value_Type) :=
  ret (get_status io, get_value io).

(** [GPIO_SetValue] requests a write and returns the status the outside
    world gives it.  Every call site of main.c discards that status. *)
Definition GPIO_SetValue (io : TimerIO) (h : Handle) (v : GPIO_Value_Type)
  : Cmd Z :=
  emit (EvSetValue h v) ;;
  ret (set_status io h).

Definition Log_Debug (msg : string) : Cmd unit := emit (EvLog msg).

(** ** Handlers *)

(** main.c lines 45-49. *)
Definition TerminationHandler : Cmd unit := set_terminationRequired.

(** main.c lines 54-83.  A call whose value is not used is sequenced
    with [;;], which drops the value. *)
Definition ButtonTimerEventHandler (io : TimerIO) : Cmd unit :=
  r <- ConsumeTimerFdEvent io buttonPollTimerFd ;;
  if r !=? 0 then set_terminationRequired
  else
    res <- GPIO_GetValue io button_A_GpioFd ;;
    let '(result, newButtonState) := res in
    if result !=? 0 then
      Log_Debug "ERROR: Could not read button GPIO: %s (%d).\n" ;;
      set_terminationRequired
    else if GPIO_Value_eqb newButtonState GPIO_Value_High then
      assign_isMotorTurning false ;;
      assign_stepNumber 0 ;;
      GPIO_SetValue io greenLEDFd GPIO_Value_High ;; ret tt
    else
      assign_isMotorTurning true ;;
      GPIO_SetValue io greenLEDFd GPIO_Value_Low ;; ret tt.

(** main.c lines 92-147.  The [switch] is the chain of comparisons, its
    [default] the final [ret tt]. *)
Definition StepperMotorEventHandler (io : TimerIO) : Cmd unit :=
  r <- ConsumeTimerFdEvent io stepperMotorTimerFd ;;
  if r !=? 0 then set_terminationRequired
  else
    turning <- read isMotorTurning ;;
    if turning then
      s <- read stepNumber ;;
      (if s =? 0 then
         Log_Debug "STEP 0\n" ;;
         GPIO_SetValue io IN1 GPIO_Value_Low ;;
         GPIO_SetValue io IN2 GPIO_Value_High ;;
         GPIO_SetValue io IN3 GPIO_Value_High ;;
         GPIO_SetValue io IN4 GPIO_Value_High ;; ret tt
       else if s =? 1 then
         Log_Debug "STEP 1\n" ;;
         GPIO_SetValue io IN1 GPIO_Value_High ;;
         GPIO_SetValue io IN2 GPIO_Value_Low ;;
         GPIO_SetValue io IN3 GPIO_Value_High ;;
         GPIO_SetValue io IN4 GPIO_Value_High ;; ret tt
       else if s =? 2 then
         Log_Debug "STEP 2\n" ;;
         GPIO_SetValue io IN1 GPIO_Value_High ;;
         GPIO_SetValue io IN2 GPIO_Value_High ;;
         GPIO_SetValue io IN3 GPIO_Value_Low ;;
         GPIO_SetValue io IN4 GPIO_Value_High ;; ret tt
       else if s =? 3 then
         Log_Debug "STEP 3\n" ;;
         GPIO_SetValue io IN1 GPIO_Value_High ;;
         GPIO_SetValue io IN2 GPIO_Value_High ;;
         GPIO_SetValue io IN3 GPIO_Value_High ;;
         GPIO_SetValue io IN4 GPIO_Value_Low ;; ret tt
       else ret tt) ;;
      s1 <- read stepNumber ;;
      assign_stepNumber (wrap_int (s1 + 1)) ;;
      s2 <- read stepNumber ;;
      if s2 =? 4 then assign_stepNumber 0 else ret tt
    else
      GPIO_SetValue io IN1 GPIO_Value_High ;;
      GPIO_SetValue io IN2 GPIO_Value_High ;;
      GPIO_SetValue io IN3 GPIO_Value_High ;;
      GPIO_SetValue io IN4 GPIO_Value_High ;; ret tt.

(** [.eventHandler] of the two [EventData] objects (lines 150 and 153). *)
Definition eventHandler (ed : EventData) : TimerIO -> Cmd unit :=
  match ed with
  | buttonEventData => ButtonTimerEventHandler
  | motorTurnEventData => StepperMotorEventHandler
  end.

(** ** Start-up and shutdown *)

(** The answers of the outside world over one run of [main]. *)
Inductive WaitOutcome :=
| WaitFailed (status : Z)
| WaitInterrupted
| WaitReady (ed : EventData) (io : TimerIO).

(** One turn of the [while] loop of [main]: whether SIGTERM is delivered
    between the loop test and the return of the wait, what the wait does,
    and whether SIGTERM is delivered between the dispatch and the next
    loop test. *)
Record Iteration := mkIteration {
  sigterm_before : bool;
  wait_outcome : WaitOutcome;
  sigterm_after : bool
}.

Record Env := mkEnv {
  open_result : Handle -> Z;
  sigterm_at_startup : bool;
  iterations : list Iteration;
  close_status : Handle -> Z
}.

(** [h = call(...)]: the descriptor returned by the outside world is stored
    in the variable [h]. *)
Definition acquire (env : Env) (h : Handle) (call : OpenCall) : Cmd Z :=
  let r := open_result env h in
  emit (EvAcquire h call r) ;;
  assign_fd h r ;;
  ret r.

Notation "h '::=' call 'using' env" := (acquire env h call)
  (at level 60, call at level 9, env at level 9).

(** main.c lines 159-240.  [sigaction] installs [TerminationHandler];
    delivery of the signal is an input of [main]. *)
Definition InitPeripheralsAndHandlers (env : Env) : Cmd Z :=
  r <- epollFd ::= CreateEpollFd using env ;;
  if r <? 0 then ret (-1)
  else
  Log_Debug "Opening SAMPLE_BUTTON_1 as input.\n" ;;
  r <- button_A_GpioFd
         ::= (GPIO_OpenAsInput AVNET_MT3620_SK_USER_BUTTON_A) using env ;;
  if r <? 0 then
    Log_Debug "ERROR: Could not open button A GPIO: %s (%d).\n" ;;
    ret (-1)
  else
  r <- buttonPollTimerFd
         ::= (CreateTimerFdAndAddToEpoll 1000000 buttonEventData) using env ;;
  if r <? 0 then ret (-1)
  else
  Log_Debug "Opening SAMPLE_LED as output.\n" ;;
  r <- greenLEDFd
         ::= (GPIO_OpenAsOutput AVNET_MT3620_SK_USER_LED_GREEN GPIO_Value_High)
         using env ;;
  if r <? 0 then
    Log_Debug "ERROR: Could not open green LED GPIO: %s (%d).\n" ;;
    ret (-1)
  else
  Log_Debug "Init IN4 GPIO.\n" ;;
  r <- IN4 ::= (GPIO_OpenAsOutput AVNET_MT3620_SK_GPIO34 GPIO_Value_High)
         using env ;;
  if r <? 0 then
    Log_Debug "ERROR: Could not open IN4 GPIO: %s (%d).\n" ;;
    ret (-1)
  else
  Log_Debug "Init IN3 GPIO.\n" ;;
  r <- IN3 ::= (GPIO_OpenAsOutput AVNET_MT3620_SK_GPIO31 GPIO_Value_High)
         using env ;;
  if r <? 0 then
    Log_Debug "ERROR: Could not open IN3 GPIO: %s (%d).\n" ;;
    ret (-1)
  else
  Log_Debug "Init IN2 GPIO.\n" ;;
  r <- IN2 ::= (GPIO_OpenAsOutput AVNET_MT3620_SK_GPIO33 GPIO_Value_High)
         using env ;;
  if r <? 0 then
    Log_Debug "ERROR: Could not open IN2 GPIO: %s (%d).\n" ;;
    ret (-1)
  else
  Log_Debug "Init IN1 GPIO.\n" ;;
  r <- IN1 ::= (GPIO_OpenAsOutput AVNET_MT3620_SK_GPIO32 GPIO_Value_High)
         using env ;;
  if r <? 0 then
    Log_Debug "ERROR: Could not open IN1 GPIO: %s (%d).\n" ;;
    ret (-1)
  else
  r <- stepperMotorTimerFd
         ::= (CreateTimerFdAndAddToEpoll 2048000 motorTurnEventData) using env ;;
  if r <? 0 then ret (-1)
  else ret 0.

(** Modelled from the spec: [CloseFdAndPrintError] is declared in
    epoll_timerfd_utilities.h and its body is not part of the sources.
    Following sections 4.3, 7 and 8 of the specification it releases
    one handle: a handle that was never opened (its descriptor is
    negative) is passed over without an error; otherwise the release is
    attempted once, and a failing release is reported and not propagated
    (the function returns [void]).  An attempt is recorded with the
    status the outside world gives it. *)
Definition CloseFdAndPrintError (env : Env) (h : Handle) (name : string)
  : Cmd unit :=
  f <- read (fun g => fd g h) ;;
  if f <? 0 then ret tt
  else emit (EvClose h name (close_status env h)).

(** main.c lines 245-260. *)
Definition ClosePeripheralsAndHandlers (env : Env) : Cmd unit :=
  Log_Debug "Closing file descriptors.\n" ;;
  CloseFdAndPrintError env epollFd "Epoll" ;;
  CloseFdAndPrintError env buttonPollTimerFd "Button A Timer" ;;
  CloseFdAndPrintError env greenLEDFd "Green LED" ;;
  CloseFdAndPrintError env button_A_GpioFd "Button A GPIO" ;;
  CloseFdAndPrintError env stepperMotorTimerFd "Stepper motor timer event" ;;
  CloseFdAndPrintError env IN1 "IN1 GPIO" ;;
  CloseFdAndPrintError env IN2 "IN2 GPIO" ;;
  CloseFdAndPrintError env IN3 "IN3 GPIO" ;;
  CloseFdAndPrintError env IN4 "IN4 GPIO".

(** ** Run loop *)

(** Modelled from the spec: [WaitForEventAndCallHandler] is declared in
    epoll_timerfd_utilities.h and its body is not part of the sources.
    Following sections 2 and 4.3 of the specification it blocks until a
    registered timer is ready and then calls the handler bound to it,
    returning 0; when the blocking call itself fails it returns the
    failure status and calls nothing.  A wait cut short by a signal
    returns 0 without a call. *)
Definition WaitForEventAndCallHandler (w : WaitOutcome) (h : Handle) : Cmd Z :=
  match w with
  | WaitFailed status => ret status
  | WaitInterrupted => ret 0
  | WaitReady ed io => emit (EvDispatch ed) ;; eventHandler ed io ;; ret 0
  end.

Definition deliver_sigterm (b : bool) : Cmd unit :=
  if b then TerminationHandler else ret tt.

(** The body of the [while] loop of [main] (lines 271-273), with the
    points at which SIGTERM can interleave. *)
Definition loop_body (it : Iteration) : Cmd unit :=
  deliver_sigterm (sigterm_before it) ;;
  r <- WaitForEventAndCallHandler (wait_outcome it) epollFd ;;
  (if r !=? 0 then set_terminationRequired else ret tt) ;;
  deliver_sigterm (sigterm_after it).

(** [while (!terminationRequired) { ... }] over the turns the outside
    world supplies.  The result is [true] when the loop has been left and
    [false] when the supplied turns are used up with the latch clear (the
    program is still blocked in the wait). *)
Fixpoint run_loop (its : list Iteration) : Cmd bool :=
  fun g =>
    if terminationRequired g then (true, g, [])
    else match its with
         | [] => (false, g, [])
         | it :: rest => (loop_body it ;; run_loop rest) g
         end.

(** main.c lines 262-279.  The result is the exit status, [None] while
    the program is still running. *)
Definition main (env : Env) : Cmd (option Z) :=
  Log_Debug "GPIO application starting.\n" ;;
  r <- InitPeripheralsAndHandlers env ;;
  (if r !=? 0 then set_terminationRequired else ret tt) ;;
  deliver_sigterm (sigterm_at_startup env) ;;
  left <- run_loop (iterations env) ;;
  if left : bool then
    ClosePeripheralsAndHandlers env ;;
    Log_Debug "Application exiting.\n" ;;
    ret (Some 0)
  else ret None.

(** ** Observations on traces *)

(** The line writes of a trace, in order. *)
Fixpoint gpio_writes (t : list Event) : list (Handle * GPIO_Value_Type) :=
  match t with
  | [] => []
  | EvSetValue h v :: t' => (h, v) :: gpio_writes t'
  | _ :: t' => gpio_writes t'
  end.

(** The lines a list of writes drives to the active (low) level. *)
Fixpoint active_lines (ws : list (Handle * GPIO_Value_Type)) : list Handle :=
  match ws with
  | [] => []
  | (h, GPIO_Value_Low) :: ws' => h :: active_lines ws'
  | (_, GPIO_Value_High) :: ws' => active_lines ws'
  end.

Definition is_dispatch (e : Event) : bool :=
  match e with EvDispatch _ => true | _ => false end.

Definition count_dispatch (t : list Event) : nat :=
  length (filter is_dispatch t).

Definition is_acquire (e : Event) : bool :=
  match e with EvAcquire _ _ _ => true | _ => false end.

(** The handles on which an acquisition call returned a descriptor, in
    the order of the calls. *)
Fixpoint acquired (t : list Event) : list Handle :=
  match t with
  | [] => []
  | EvAcquire h _ r :: t' => if r <? 0 then acquired t' else h :: acquired t'
  | _ :: t' => acquired t'
  end.

(** The handles on which a release is attempted, in the order of the
    attempts. *)
Fixpoint released (t : list Event) : list Handle :=
  match t with
  | [] => []
  | EvClose h _ _ :: t' => h :: released t'
  | _ :: t' => released t'
  end.

(** ** The step table of the specification (section 4.2) *)

(** Line [IN(s+1)] for a step index [s]. *)
Definition drive_line (s : Z) : Handle :=
  if s =? 0 then IN1 else if s =? 1 then IN2 else if s =? 2 then IN3 else IN4.

(** Row [s] of the table: line [IN(s+1)] active, the other three
    inactive. *)
Definition step_pattern (s : Z) : list (Handle * GPIO_Value_Type) :=
  map (fun k => (drive_line k, if k =? s then GPIO_Value_Low else GPIO_Value_High))
      [0; 1; 2; 3].

Definition all_inactive : list (Handle * GPIO_Value_Type) :=
  [(IN1, GPIO_Value_High); (IN2, GPIO_Value_High);
   (IN3, GPIO_Value_High); (IN4, GPIO_Value_High)].

(** Consecutive Step Sequencer invocations; the result is the final state
    and the trace of each invocation. *)
Fixpoint stepper_ticks (ios : list TimerIO) (g : Globals)
  : Globals * list (list Event) :=
  match ios with
  | [] => (g, [])
  | io :: rest =>
      let r := StepperMotorEventHandler io g in
      let '(g', ts) := stepper_ticks rest (globals_of r) in
      (g', trace_of r :: ts)
  end.

(** An input on which the timer is acknowledged and the button reads as
    [v]. *)
Definition io_ok (v : GPIO_Value_Type) : TimerIO :=
  {| consume_status := 0; get_status := 0; get_value := v;
     set_status := fun _ => 0 |}.

(** An input on which acknowledging the timer fails. *)
Definition io_consume_fails : TimerIO :=
  {| consume_status := -1; get_status := 0; get_value := GPIO_Value_High;
     set_status := fun _ => 0 |}.

(** An input on which the button read fails. *)
Definition io_read_fails : TimerIO :=
  {| consume_status := 0; get_status := -1; get_value := GPIO_Value_High;
     set_status := fun _ => 0 |}.

(** An input on which the timer is acknowledged, the button reads as
    pressed, and every line write fails. *)
Definition io_writes_fail : TimerIO :=
  {| consume_status := 0; get_status := 0; get_value := GPIO_Value_Low;
     set_status := fun _ => -1 |}.

(** The same input with other line-write statuses. *)
Definition with_set_status (io : TimerIO) (st : Handle -> Z) : TimerIO :=
  {| consume_status := consume_status io; get_status := get_status io;
     get_value := get_value io; set_status := st |}.

Definition with_motor (turning : bool) (s : Z) (g : Globals) : Globals :=
  {| fd := fd g;
     terminationRequired := terminationRequired g;
     buttonState := buttonState g;
     isMotorTurning := turning;
     stepNumber := s |}.

(** ** Definitions used by the statements *)

Definition latched (g : Globals) : Globals :=
  {| fd := fd g;
     terminationRequired := true;
     buttonState := buttonState g;
     isMotorTurning := isMotorTurning g;
     stepNumber := stepNumber g |}.

Definition drive_lines : list Handle := [IN1; IN2; IN3; IN4].

(** The operations that run between start-up and shutdown. *)
Inductive Op :=
| OpButton (io : TimerIO)
| OpStepper (io : TimerIO)
| OpSigterm.

Definition run_op (op : Op) : Cmd unit :=
  match op with
  | OpButton io => ButtonTimerEventHandler io
  | OpStepper io => StepperMotorEventHandler io
  | OpSigterm => TerminationHandler
  end.

Fixpoint run_ops (ops : list Op) (g : Globals) : Globals :=
  match ops with
  | [] => g
  | op :: rest => run_ops rest (globals_of (run_op op g))
  end.

(** The invariant carried by the state: the step index is in range, and
    it is 0 whenever the motor is not turning. *)
Definition motor_inv (g : Globals) : Prop :=
  0 <= stepNumber g <= 3 /\ (isMotorTurning g = false -> stepNumber g = 0).

Definition is_latch (e : Event) : bool :=
  match e with EvLatch => true | _ => false end.

Definition has_latch (t : list Event) : bool := existsb is_latch t.

Definition is_close (e : Event) : bool :=
  match e with EvClose _ _ _ => true | _ => false end.

(** The events after the first execution of [terminationRequired = true]
    in a trace (none when the latch is never set). *)
Fixpoint after_latch (t : list Event) : list Event :=
  match t with
  | [] => []
  | EvLatch :: t' => t'
  | _ :: t' => after_latch t'
  end.

(** A command tracks the latch when the latch after it is the latch
    before it or-ed with "the assignment [terminationRequired = true] was
    executed".  No command of main.c clears the latch. *)
Definition tracks_latch {A} (c : Cmd A) : Prop :=
  forall g, terminationRequired (globals_of (c g))
            = terminationRequired g || has_latch (trace_of (c g)).

(** A command emits only events of the class [P]. *)
Definition emits_only (P : Event -> bool) {A} (c : Cmd A) : Prop :=
  forall g, forallb P (trace_of (c g)) = true.

(** What a handler may do: log, write a line, set the latch. *)
Definition handler_event (e : Event) : bool :=
  match e with EvLog _ | EvSetValue _ _ | EvLatch => true | _ => false end.

(** What [InitPeripheralsAndHandlers] may do: log, acquire. *)
Definition init_event (e : Event) : bool :=
  match e with EvLog _ | EvAcquire _ _ _ => true | _ => false end.

(** What start-up may do: log, acquire, set the latch. *)
Definition startup_event (e : Event) : bool :=
  match e with EvLog _ | EvAcquire _ _ _ | EvLatch => true | _ => false end.

(** What the run loop may do: dispatch, and what a handler may do. *)
Definition loop_event (e : Event) : bool :=
  match e with EvDispatch _ => true | _ => handler_event e end.

(** The order of the acquisition calls in [InitPeripheralsAndHandlers]. *)
Definition acquisition_order : list Handle :=
  [epollFd; button_A_GpioFd; buttonPollTimerFd; greenLEDFd;
   IN4; IN3; IN2; IN1; stepperMotorTimerFd].

(** The handles of [l] whose descriptor is open (not negative) in [g]. *)
Definition open_handles (g : Globals) (l : list Handle) : list Handle :=
  filter (fun h => negb (fd g h <? 0)) l.

(** The release attempts made for the handles of a list of calls: none
    for a descriptor that is negative. *)
Fixpoint close_events (env : Env) (g : Globals) (l : list (Handle * string))
  : list Event :=
  match l with
  | [] => []
  | (h, name) :: l' =>
      if fd g h <? 0 then close_events env g l'
      else EvClose h name (close_status env h) :: close_events env g l'
  end.

(** The calls of [ClosePeripheralsAndHandlers], in order. *)
Definition release_calls : list (Handle * string) :=
  [(epollFd, "Epoll"); (buttonPollTimerFd, "Button A Timer");
   (greenLEDFd, "Green LED"); (button_A_GpioFd, "Button A GPIO");
   (stepperMotorTimerFd, "Stepper motor timer event");
   (IN1, "IN1 GPIO"); (IN2, "IN2 GPIO"); (IN3, "IN3 GPIO");
   (IN4, "IN4 GPIO")].

(** The same environment with other release statuses. *)
Definition with_close_status (env : Env) (st : Handle -> Z) : Env :=
  {| open_result := open_result env;
     sigterm_at_startup := sigterm_at_startup env;
     iterations := iterations env;
     close_status := st |}.

(** The order of the release calls in [ClosePeripheralsAndHandlers]. *)
Definition release_order : list Handle :=
  [epollFd; buttonPollTimerFd; greenLEDFd; button_A_GpioFd;
   stepperMotorTimerFd; IN1; IN2; IN3; IN4].

(** Every acquisition call returns a descriptor. *)
Definition all_opened (env : Env) : bool :=
  forallb (fun h => negb (open_result env h <? 0)) acquisition_order.

(** The handles of [l] up to the first one whose acquisition fails. *)
Fixpoint opened_prefix (env : Env) (l : list Handle) : list Handle :=
  match l with
  | [] => []
  | h :: l' => if open_result env h <? 0 then [] else h :: opened_prefix env l'
  end.

(** A turn of the loop during which termination is requested from
    outside the handlers: SIGTERM is delivered, or the wait fails. *)
Definition ends_run (it : Iteration) : bool :=
  sigterm_before it || sigterm_after it
  || match wait_outcome it with
     | WaitFailed status => status !=? 0
     | _ => false
     end.

(** [main] up to the first loop test. *)
Definition startup (env : Env) : Cmd unit :=
  Log_Debug "GPIO application starting.\n" ;;
  r <- InitPeripheralsAndHandlers env ;;
  (if r !=? 0 then set_terminationRequired else ret tt) ;;
  deliver_sigterm (sigterm_at_startup env).

(** [main] after the loop. *)
Definition finish (env : Env) (left : bool) : Cmd (option Z) :=
  if left then
    ClosePeripheralsAndHandlers env ;;
    Log_Debug "Application exiting.\n" ;;
    ret (Some 0)
  else ret None.

(** The state at the first loop test of [main], and the run of the loop
    from it. *)
Definition loop_entry (env : Env) (g : Globals) : Globals :=
  globals_of (startup env g).

Definition loop_run (env : Env) (g : Globals) : bool * Globals * list Event :=
  run_loop (iterations env) (loop_entry env g).

(** ** Concrete runs *)

(** Descriptors as the system would number them. *)
Definition fds_ok (h : Handle) : Z :=
  match h with
  | epollFd => 3 | button_A_GpioFd => 4 | buttonPollTimerFd => 5
  | greenLEDFd => 6 | IN4 => 7 | IN3 => 8 | IN2 => 9 | IN1 => 10
  | stepperMotorTimerFd => 11
  end.

Definition tick (ed : EventData) (io : TimerIO) : Iteration :=
  {| sigterm_before := false; wait_outcome := WaitReady ed io;
     sigterm_after := false |}.

(** SIGTERM arrives while the loop is blocked; the wait then reports a
    motor tick. *)
Definition late_tick : Iteration :=
  {| sigterm_before := true;
     wait_outcome := WaitReady motorTurnEventData (io_ok GPIO_Value_Low);
     sigterm_after := false |}.

(** Every acquisition succeeds; the button is pressed, the motor steps
    once, then SIGTERM arrives.  The release of IN2 fails. *)
Definition env_run : Env :=
  {| open_result := fds_ok;
     sigterm_at_startup := false;
     iterations := [tick buttonEventData (io_ok GPIO_Value_Low);
                    tick motorTurnEventData (io_ok GPIO_Value_Low);
                    late_tick;
                    tick motorTurnEventData (io_ok GPIO_Value_Low)];
     close_status := fun h => if Handle_eqb h IN2 then -1 else 0 |}.

(** Opening the green LED fails; the timers would be ready. *)
Definition env_led_fails : Env :=
  {| open_result := fun h => if Handle_eqb h greenLEDFd then -1 else fds_ok h;
     sigterm_at_startup := false;
     iterations := [tick buttonEventData (io_ok GPIO_Value_Low);
                    tick motorTurnEventData (io_ok GPIO_Value_Low)];
     close_status := fun _ => 0 |}.

(** ** Further observations *)

(** The handles on which an acquisition call was made, whatever it
    returned, in the order of the calls. *)
Fixpoint attempted (t : list Event) : list Handle :=
  match t with
  | [] => []
  | EvAcquire h _ _ :: t' => h :: attempted t'
  | _ :: t' => attempted t'
  end.

(** The handles of [l] up to and including the first one whose
    acquisition fails. *)
Fixpoint attempted_prefix (env : Env) (l : list Handle) : list Handle :=
  match l with
  | [] => []
  | h :: l' =>
      if open_result env h <? 0 then [h] else h :: attempted_prefix env l'
  end.

Definition Handle_in (h : Handle) (l : list Handle) : bool :=
  existsb (Handle_eqb h) l.

(** The handles acquired at start-up, in the order of the release calls. *)
Definition acquired_in_release_order (env : Env) : list Handle :=
  filter (fun h => Handle_in h (opened_prefix env acquisition_order))
         release_order.

(** The lines opened as outputs with the level they are opened at, and
    the board pins opened, in the order of the calls. *)
Fixpoint output_levels (t : list Event) : list (Handle * GPIO_Value_Type) :=
  match t with
  | [] => []
  | EvAcquire h (GPIO_OpenAsOutput _ v) _ :: t' => (h, v) :: output_levels t'
  | _ :: t' => output_levels t'
  end.

Fixpoint pins_opened (t : list Event) : list Pin :=
  match t with
  | [] => []
  | EvAcquire _ (GPIO_OpenAsOutput pin _) _ :: t'
  | EvAcquire _ (GPIO_OpenAsInput pin) _ :: t' => pin :: pins_opened t'
  | _ :: t' => pins_opened t'
  end.

(** The levels commanded on output lines, in order: the initial level
    of a line that is opened, and every level written afterwards. *)
Fixpoint commanded (t : list Event) : list (Handle * GPIO_Value_Type) :=
  match t with
  | [] => []
  | EvSetValue h v :: t' => (h, v) :: commanded t'
  | EvAcquire h (GPIO_OpenAsOutput _ v) r :: t' =>
      if r <? 0 then commanded t' else (h, v) :: commanded t'
  | _ :: t' => commanded t'
  end.

(** The timers created, with their period and the [EventData] they are
    registered with. *)
Fixpoint timers_created (t : list Event) : list (Handle * Z * EventData) :=
  match t with
  | [] => []
  | EvAcquire h (CreateTimerFdAndAddToEpoll ns ed) _ :: t' =>
      (h, ns, ed) :: timers_created t'
  | _ :: t' => timers_created t'
  end.

(** The first handle of [l] whose acquisition fails, if any. *)
Fixpoint first_failure (env : Env) (l : list Handle) : option Handle :=
  match l with
  | [] => None
  | h :: l' => if open_result env h <? 0 then Some h else first_failure env l'
  end.

(** Opening the epoll descriptor fails at once. *)
Definition env_epoll_fails : Env :=
  {| open_result := fun h => if Handle_eqb h epollFd then -1 else fds_ok h;
     sigterm_at_startup := false;
     iterations := [];
     close_status := fun _ => 0 |}.

(** A Button Monitor input on which both the timer acknowledgement and
    the button read succeed. *)
Definition poll_succeeds (io : TimerIO) : bool :=
  (consume_status io =? 0) && (get_status io =? 0).

Definition successful_release (io : TimerIO) : bool :=
  poll_succeeds io && GPIO_Value_eqb (get_value io) GPIO_Value_High.

Definition successful_press (io : TimerIO) : bool :=
  poll_succeeds io && GPIO_Value_eqb (get_value io) GPIO_Value_Low.

(** Operations other than a Button Monitor invocation that samples a
    released button. *)
Definition keeps_turning (op : Op) : bool :=
  match op with
  | OpButton io => negb (successful_release io)
  | _ => true
  end.

(** Step Sequencer invocations whose timer is acknowledged. *)
Definition advances (op : Op) : bool :=
  match op with
  | OpStepper io => consume_status io =? 0
  | _ => false
  end.

Definition count_advances (ops : list Op) : nat :=
  length (filter advances ops).

(** A command preserves a property of the file-scope state. *)
Definition preserves (I : Globals -> Prop) {A} (c : Cmd A) : Prop :=
  forall g, I g -> I (globals_of (c g)).

(** A turn of the loop without a signal. *)
Definition quiet_turn (w : WaitOutcome) : Iteration :=
  {| sigterm_before := false; wait_outcome := w; sigterm_after := false |}.

(** What shutdown may do: log, release. *)
Definition finish_event (e : Event) : bool :=
  match e with EvLog _ | EvClose _ _ _ => true | _ => false end.

(** What only a turn of the loop does: dispatch a handler, write a line. *)
Definition handler_activity (e : Event) : bool :=
  match e with EvDispatch _ | EvSetValue _ _ => true | _ => false end.

(** The events of a sequence of operations, in order. *)
Fixpoint ops_trace (ops : list Op) (g : Globals) : list Event :=
  match ops with
  | [] => []
  | op :: rest =>
      trace_of (run_op op g) ++ ops_trace rest (globals_of (run_op op g))
  end.

(** Operations other than a Button Monitor invocation that samples a
    pressed button. *)
Definition no_press (op : Op) : bool :=
  match op with
  | OpButton io => negb (successful_press io)
  | _ => true
  end.

(** The operations one turn of the loop performs on the state.  Setting
    the latch after a failed wait acts on the state as the signal handler
    does. *)
Definition turn_ops (it : Iteration) : list Op :=
  (if sigterm_before it then [OpSigterm] else [])
  ++ match wait_outcome it with
     | WaitFailed status => if status !=? 0 then [OpSigterm] else []
     | WaitInterrupted => []
     | WaitReady buttonEventData io => [OpButton io]
     | WaitReady motorTurnEventData io => [OpStepper io]
     end
  ++ (if sigterm_after it then [OpSigterm] else []).

(** The number of turns the loop makes over the supplied turns. *)
Fixpoint turns_run (its : list Iteration) (g : Globals) : nat :=
  if terminationRequired g then 0%nat
  else match its with
       | [] => 0%nat
       | it :: rest => S (turns_run rest (globals_of (loop_body it g)))
       end.

(** * Properties *)

(** ** Step Sequencer *)

Ltac open_globals g :=
  let f := fresh "fds" in
  let t := fresh "latch" in
  let b := fresh "bst" in
  let m := fresh "turning" in
  let s := fresh "step" in
  destruct g as [f t b m s]; cbn [fd terminationRequired buttonState
                                   isMotorTurning stepNumber] in *.

Ltac open_io io :=
  let c := fresh "cs" in
  let r := fresh "gs" in
  let v := fresh "gv" in
  let w := fresh "ws" in
  destruct io as [c r v w];
  cbn [consume_status get_status get_value set_status] in *.

Ltac run_handler :=
  cbv beta iota zeta delta
    [StepperMotorEventHandler ButtonTimerEventHandler TerminationHandler
     bind ConsumeTimerFdEvent GPIO_GetValue GPIO_SetValue Log_Debug
     set_terminationRequired assign_isMotorTurning assign_stepNumber
     read emit ret globals_of trace_of
     consume_status get_status get_value set_status
     fd terminationRequired buttonState
     isMotorTurning stepNumber fst snd app negb].

Ltac case_test b := destruct b eqn:?; run_handler.

Lemma stepper_tick_turning (io : TimerIO) (g : Globals) :
  consume_status io = 0 ->
  isMotorTurning g = true ->
  0 <= stepNumber g <= 3 ->
  globals_of (StepperMotorEventHandler io g)
    = with_motor true ((stepNumber g + 1) mod 4) g
  /\ gpio_writes (trace_of (StepperMotorEventHandler io g))
    = step_pattern (stepNumber g).
Proof.
  intros Hc Ht Hs. open_globals g. open_io io. subst cs turning.
  assert (H : step = 0 \/ step = 1 \/ step = 2 \/ step = 3) by lia.
  destruct H as [-> | [-> | [-> | ->]]]; split; reflexivity.
Qed.

Lemma stepper_tick_idle (io : TimerIO) (g : Globals) :
  consume_status io = 0 ->
  isMotorTurning g = false ->
  StepperMotorEventHandler io g
    = (tt, g, [EvSetValue IN1 GPIO_Value_High; EvSetValue IN2 GPIO_Value_High;
               EvSetValue IN3 GPIO_Value_High; EvSetValue IN4 GPIO_Value_High]).
Proof.
  intros Hc Ht. open_globals g. open_io io. subst cs turning. reflexivity.
Qed.

Lemma step_pattern_active (s : Z) :
  0 <= s <= 3 -> active_lines (step_pattern s) = [drive_line s].
Proof.
  intros Hs.
  assert (H : s = 0 \/ s = 1 \/ s = 2 \/ s = 3) by lia.
  destruct H as [-> | [-> | [-> | ->]]]; reflexivity.
Qed.

Lemma seq_shift_map (f : nat -> list (Handle * GPIO_Value_Type)) (n : nat) :
  map f (seq 1 n) = map (fun k => f (S k)) (seq 0 n).
Proof.
  rewrite <- seq_shift, map_map. reflexivity.
Qed.

Lemma stepper_ticks_turning (ios : list TimerIO) :
  forall g,
    Forall (fun io => consume_status io = 0) ios ->
    isMotorTurning g = true ->
    0 <= stepNumber g <= 3 ->
    fst (stepper_ticks ios g)
      = with_motor true ((stepNumber g + Z.of_nat (length ios)) mod 4) g
    /\ map gpio_writes (snd (stepper_ticks ios g))
      = map (fun k => step_pattern ((stepNumber g + Z.of_nat k) mod 4))
            (seq 0 (length ios)).
Proof.
  induction ios as [| io rest IH]; intros g Hall Ht Hs.
  - cbn. split; [| reflexivity].
    rewrite Z.add_0_r, Z.mod_small by lia.
    open_globals g. subst turning. reflexivity.
  - inversion Hall as [| ? ? Hio Hrest]; subst.
    destruct (stepper_tick_turning io g Hio Ht Hs) as [Hg Hw].
    cbn [stepper_ticks].
    set (g1 := globals_of (StepperMotorEventHandler io g)) in *.
    assert (Ht1 : isMotorTurning g1 = true) by (rewrite Hg; reflexivity).
    assert (Hs1 : stepNumber g1 = (stepNumber g + 1) mod 4)
      by (rewrite Hg; reflexivity).
    assert (Hr1 : 0 <= stepNumber g1 <= 3)
      by (rewrite Hs1; pose proof (Z.mod_pos_bound (stepNumber g + 1) 4); lia).
    destruct (IH g1 Hrest Ht1 Hr1) as [IHg IHw].
    destruct (stepper_ticks rest g1) as [g' ts] eqn:E.
    cbn [fst snd] in *. split.
    + rewrite IHg, Hs1, Hg. unfold with_motor; cbn.
      f_equal. rewrite Zplus_mod_idemp_l. f_equal. lia.
    + cbn [map length seq]. rewrite Hw, IHw, seq_shift_map.
      f_equal.
      * rewrite Z.add_0_r, Z.mod_small by lia. reflexivity.
      * apply map_ext. intros k. rewrite Hs1, Zplus_mod_idemp_l.
        do 2 f_equal. lia.
Qed.

(** Section 8, scenario A: the button held for eight ticks from step 0
    activates IN1, IN2, IN3, IN4, IN1, IN2, IN3, IN4. *)
Example scenario_held_for_eight_ticks :
  let g := with_motor true 0 initial_globals in
  let ios := repeat (io_ok GPIO_Value_Low) 8 in
  concat (map (fun t => active_lines (gpio_writes t)) (snd (stepper_ticks ios g)))
  = [IN1; IN2; IN3; IN4; IN1; IN2; IN3; IN4]
  /\ stepNumber (fst (stepper_ticks ios g)) = 0.
Proof. split; reflexivity. Qed.

(** Section 8, scenario B: pressed, two ticks, released, one more tick. *)
Example scenario_press_then_release :
  let ops := [OpButton (io_ok GPIO_Value_Low);
              OpStepper (io_ok GPIO_Value_Low);
              OpStepper (io_ok GPIO_Value_Low)] in
  let g2 := run_ops ops initial_globals in
  let g3 := globals_of (run_op (OpButton (io_ok GPIO_Value_High)) g2) in
  stepNumber g2 = 2 /\ isMotorTurning g2 = true
  /\ stepNumber g3 = 0 /\ isMotorTurning g3 = false
  /\ gpio_writes (trace_of (run_op (OpStepper (io_ok GPIO_Value_Low)) g3))
     = all_inactive.
Proof. repeat split. Qed.

(** C1 (as amended).  When the timer is acknowledged, [isMotorTurning] is
    set and [stepNumber] is [s] in 0..3, one Step Sequencer invocation
    writes each of IN1..IN4 once, line IN(s+1) low and the other three
    high, and leaves [stepNumber = (s + 1) mod 4] with the flag still set.
    Over N consecutive acknowledged ticks the final [stepNumber] is
    [(s + N) mod 4] and tick number k writes row [(s + k) mod 4] of the
    step table, so exactly one line is active at each tick. *)
Theorem stepper_sequence_when_turning (ios : list TimerIO) (g : Globals) :
  Forall (fun io => consume_status io = 0) ios ->
  isMotorTurning g = true ->
  0 <= stepNumber g <= 3 ->
  (forall io, consume_status io = 0 ->
     let r := StepperMotorEventHandler io g in
     gpio_writes (trace_of r) = step_pattern (stepNumber g)
     /\ active_lines (gpio_writes (trace_of r)) = [drive_line (stepNumber g)]
     /\ stepNumber (globals_of r) = (stepNumber g + 1) mod 4
     /\ isMotorTurning (globals_of r) = true)
  /\ stepNumber (fst (stepper_ticks ios g))
       = (stepNumber g + Z.of_nat (length ios)) mod 4
  /\ isMotorTurning (fst (stepper_ticks ios g)) = true
  /\ map gpio_writes (snd (stepper_ticks ios g))
       = map (fun k => step_pattern ((stepNumber g + Z.of_nat k) mod 4))
             (seq 0 (length ios))
  /\ Forall (fun t => exists k, 0 <= k <= 3
                                /\ active_lines (gpio_writes t) = [drive_line k])
            (snd (stepper_ticks ios g)).
Proof.
  intros Hall Ht Hs.
  destruct (stepper_ticks_turning ios g Hall Ht Hs) as [Hg Hw].
  split; [| split; [| split; [| split]]].
  - intros io Hio r. subst r.
    destruct (stepper_tick_turning io g Hio Ht Hs) as [Hg1 Hw1].
    rewrite Hw1, Hg1. repeat split.
    apply step_pattern_active; assumption.
  - rewrite Hg. reflexivity.
  - rewrite Hg. reflexivity.
  - exact Hw.
  - apply Forall_forall. intros t Hin.
    apply (in_map gpio_writes) in Hin. rewrite Hw in Hin.
    apply in_map_iff in Hin. destruct Hin as [k [Hk _]].
    exists ((stepNumber g + Z.of_nat k) mod 4).
    pose proof (Z.mod_pos_bound (stepNumber g + Z.of_nat k) 4).
    split; [lia |]. rewrite <- Hk. apply step_pattern_active. lia.
Qed.

Lemma stepper_sequence_when_turning_witness :
  let g := with_motor true 2 initial_globals in
  let ios := [io_ok GPIO_Value_Low; io_ok GPIO_Value_Low; io_ok GPIO_Value_Low] in
  stepNumber (fst (stepper_ticks ios g)) = 1
  /\ map gpio_writes (snd (stepper_ticks ios g))
     = [step_pattern 2; step_pattern 3; step_pattern 0].
Proof.
  intros g ios.
  assert (Hall : Forall (fun io => consume_status io = 0) ios)
    by (repeat constructor).
  assert (Ht : isMotorTurning g = true) by reflexivity.
  assert (Hs : 0 <= stepNumber g <= 3) by (cbn; lia).
  destruct (stepper_sequence_when_turning ios g Hall Ht Hs)
    as [_ [Hn [_ [Hw _]]]].
  split; [exact Hn | exact Hw].
Defined.

(** C1, as stated, fails when the timer cannot be acknowledged: with
    [isMotorTurning] set and [stepNumber = 0] the handler returns early,
    writes no line and leaves [stepNumber] at 0. *)
Lemma stepper_turning_unacknowledged_counterexample :
  let g := with_motor true 0 initial_globals in
  let r := StepperMotorEventHandler io_consume_fails g in
  isMotorTurning g = true
  /\ 0 <= stepNumber g <= 3
  /\ gpio_writes (trace_of r) = []
  /\ gpio_writes (trace_of r) <> step_pattern (stepNumber g)
  /\ stepNumber (globals_of r) <> (stepNumber g + 1) mod 4.
Proof.
  cbv zeta. repeat split; try discriminate; cbn; lia.
Qed.

(** C2.  When the timer is acknowledged and [isMotorTurning] is clear, the
    Step Sequencer writes IN1..IN4 high (inactive), nothing else, and
    leaves [stepNumber] unchanged. *)
Theorem stepper_idle_deenergises (io : TimerIO) (g : Globals) :
  consume_status io = 0 ->
  isMotorTurning g = false ->
  let r := StepperMotorEventHandler io g in
  gpio_writes (trace_of r) = all_inactive
  /\ active_lines (gpio_writes (trace_of r)) = []
  /\ stepNumber (globals_of r) = stepNumber g
  /\ globals_of r = g.
Proof.
  intros Hc Ht r. subst r.
  rewrite (stepper_tick_idle io g Hc Ht). repeat split.
Qed.

Lemma stepper_idle_deenergises_witness :
  let r := StepperMotorEventHandler (io_ok GPIO_Value_High)
             (with_motor false 3 initial_globals) in
  gpio_writes (trace_of r) = all_inactive /\ stepNumber (globals_of r) = 3.
Proof.
  intros r.
  destruct (stepper_idle_deenergises (io_ok GPIO_Value_High)
              (with_motor false 3 initial_globals) eq_refl eq_refl)
    as [Hw [_ [Hs _]]].
  split; [exact Hw | exact Hs].
Defined.

(** ** Button Monitor *)

Lemma button_released (io : TimerIO) (g : Globals) :
  consume_status io = 0 -> get_status io = 0 ->
  get_value io = GPIO_Value_High ->
  ButtonTimerEventHandler io g
    = (tt, with_motor false 0 g, [EvSetValue greenLEDFd GPIO_Value_High]).
Proof.
  intros Hc Hr Hv. open_io io. subst. reflexivity.
Qed.

Lemma button_pressed (io : TimerIO) (g : Globals) :
  consume_status io = 0 -> get_status io = 0 ->
  get_value io = GPIO_Value_Low ->
  ButtonTimerEventHandler io g
    = (tt, with_motor true (stepNumber g) g, [EvSetValue greenLEDFd GPIO_Value_Low]).
Proof.
  intros Hc Hr Hv. open_io io. subst. reflexivity.
Qed.

Lemma button_consume_fails (io : TimerIO) (g : Globals) :
  consume_status io <> 0 ->
  ButtonTimerEventHandler io g = (tt, latched g, [EvLatch]).
Proof.
  intros Hc. open_io io.
  unfold ButtonTimerEventHandler, bind, ConsumeTimerFdEvent, ret.
  cbn [consume_status].
  destruct (Z.eqb_spec cs 0) as [E | E]; [contradiction | reflexivity].
Qed.

Lemma button_read_fails (io : TimerIO) (g : Globals) :
  consume_status io = 0 -> get_status io <> 0 ->
  ButtonTimerEventHandler io g
    = (tt, latched g,
       [EvLog "ERROR: Could not read button GPIO: %s (%d).\n"; EvLatch]).
Proof.
  intros Hc Hr. open_io io. subst cs.
  unfold ButtonTimerEventHandler, bind, ConsumeTimerFdEvent, GPIO_GetValue, ret.
  cbn [consume_status get_status get_value Z.eqb negb].
  destruct (Z.eqb_spec gs 0) as [E | E]; [contradiction | reflexivity].
Qed.

Lemma stepper_consume_fails (io : TimerIO) (g : Globals) :
  consume_status io <> 0 ->
  StepperMotorEventHandler io g = (tt, latched g, [EvLatch]).
Proof.
  intros Hc. open_io io.
  unfold StepperMotorEventHandler, bind, ConsumeTimerFdEvent, ret.
  cbn [consume_status].
  destruct (Z.eqb_spec cs 0) as [E | E]; [contradiction | reflexivity].
Qed.

(** C4.  On a Button Monitor invocation whose button read succeeds (the
    read is reached only after the timer was acknowledged): a released
    button (high) leaves [isMotorTurning = false], [stepNumber = 0] and
    performs the single write "green LED high" (off), whatever
    [stepNumber] was; a pressed button (low) leaves
    [isMotorTurning = true], [stepNumber] unchanged and performs the
    single write "green LED low" (on). *)
Theorem button_monitor_levels (io : TimerIO) (g : Globals) :
  consume_status io = 0 ->
  get_status io = 0 ->
  let r := ButtonTimerEventHandler io g in
  (get_value io = GPIO_Value_High ->
     isMotorTurning (globals_of r) = false
     /\ stepNumber (globals_of r) = 0
     /\ trace_of r = [EvSetValue greenLEDFd GPIO_Value_High])
  /\ (get_value io = GPIO_Value_Low ->
     isMotorTurning (globals_of r) = true
     /\ stepNumber (globals_of r) = stepNumber g
     /\ trace_of r = [EvSetValue greenLEDFd GPIO_Value_Low]).
Proof.
  intros Hc Hr r. subst r. split; intros Hv.
  - rewrite (button_released io g Hc Hr Hv). repeat split.
  - rewrite (button_pressed io g Hc Hr Hv). repeat split.
Qed.

Lemma button_monitor_levels_witness :
  let g := with_motor true 2 initial_globals in
  stepNumber (globals_of (ButtonTimerEventHandler (io_ok GPIO_Value_High) g)) = 0
  /\ stepNumber (globals_of (ButtonTimerEventHandler (io_ok GPIO_Value_Low) g)) = 2.
Proof.
  intros g. split.
  - destruct (button_monitor_levels (io_ok GPIO_Value_High) g eq_refl eq_refl)
      as [Hrel _].
    destruct (Hrel eq_refl) as [_ [Hs _]]. exact Hs.
  - destruct (button_monitor_levels (io_ok GPIO_Value_Low) g eq_refl eq_refl)
      as [_ Hpre].
    destruct (Hpre eq_refl) as [_ [Hs _]]. exact Hs.
Defined.

(** C7.  Two successive Button Monitor invocations that both read the
    button successfully and sample the same level: the state after the
    second equals the state after the first (in particular
    [isMotorTurning] and [stepNumber]), and the two invocations perform
    the same writes. *)
Theorem button_monitor_idempotent (io1 io2 : TimerIO) (g : Globals) :
  consume_status io1 = 0 -> get_status io1 = 0 ->
  consume_status io2 = 0 -> get_status io2 = 0 ->
  get_value io1 = get_value io2 ->
  let r1 := ButtonTimerEventHandler io1 g in
  let r2 := ButtonTimerEventHandler io2 (globals_of r1) in
  isMotorTurning (globals_of r2) = isMotorTurning (globals_of r1)
  /\ stepNumber (globals_of r2) = stepNumber (globals_of r1)
  /\ globals_of r2 = globals_of r1
  /\ gpio_writes (trace_of r2) = gpio_writes (trace_of r1)
  /\ trace_of r2 = trace_of r1.
Proof.
  intros Hc1 Hr1 Hc2 Hr2 Hv r1 r2. subst r1 r2.
  destruct (get_value io1) eqn:E1; symmetry in Hv.
  - rewrite (button_pressed io1 g Hc1 Hr1 E1).
    rewrite (button_pressed io2 _ Hc2 Hr2 Hv). repeat split.
  - rewrite (button_released io1 g Hc1 Hr1 E1).
    rewrite (button_released io2 _ Hc2 Hr2 Hv). repeat split.
Qed.

Lemma button_monitor_idempotent_witness :
  let g := with_motor true 2 initial_globals in
  let r1 := ButtonTimerEventHandler (io_ok GPIO_Value_High) g in
  let r2 := ButtonTimerEventHandler (io_ok GPIO_Value_High) (globals_of r1) in
  globals_of r2 = globals_of r1 /\ trace_of r2 = trace_of r1.
Proof.
  intros g r1 r2.
  destruct (button_monitor_idempotent (io_ok GPIO_Value_High)
              (io_ok GPIO_Value_High) g eq_refl eq_refl eq_refl eq_refl eq_refl)
    as [_ [_ [Hg [_ Ht]]]].
  split; [exact Hg | exact Ht].
Defined.

Lemma set_status_discarded (io : TimerIO) (st : Handle -> Z) (g : Globals) :
  ButtonTimerEventHandler (with_set_status io st) g
    = ButtonTimerEventHandler io g
  /\ StepperMotorEventHandler (with_set_status io st) g
    = StepperMotorEventHandler io g.
Proof.
  destruct io as [c r v w]. unfold with_set_status.
  cbn [consume_status get_status get_value]. open_globals g.
  split; run_handler.
  - destruct (c =? 0); [| reflexivity]. run_handler.
    destruct (r =? 0); [| reflexivity]. run_handler.
    destruct v; reflexivity.
  - destruct (c =? 0); [| reflexivity]. run_handler.
    destruct turning; [| reflexivity]. run_handler.
    destruct (step =? 0); [| destruct (step =? 1);
      [| destruct (step =? 2); [| destruct (step =? 3)]]]; reflexivity.
Qed.

(** C8 (as amended).  A failing timer acknowledgement (either handler)
    or a failing button read sets the latch and ends the invocation:
    every other file-scope variable, in particular [isMotorTurning] and
    [stepNumber], keeps its value and no line is written.  The status of
    a line write is discarded: whatever it is, the invocation proceeds
    in the same way. *)
Theorem io_failure_fatal_and_atomic (io : TimerIO) (g : Globals) :
  (consume_status io <> 0 ->
     globals_of (ButtonTimerEventHandler io g) = latched g
     /\ gpio_writes (trace_of (ButtonTimerEventHandler io g)) = []
     /\ globals_of (StepperMotorEventHandler io g) = latched g
     /\ gpio_writes (trace_of (StepperMotorEventHandler io g)) = [])
  /\ (consume_status io = 0 -> get_status io <> 0 ->
     globals_of (ButtonTimerEventHandler io g) = latched g
     /\ gpio_writes (trace_of (ButtonTimerEventHandler io g)) = [])
  /\ terminationRequired (latched g) = true
  /\ isMotorTurning (latched g) = isMotorTurning g
  /\ stepNumber (latched g) = stepNumber g
  /\ (forall st,
        ButtonTimerEventHandler (with_set_status io st) g
          = ButtonTimerEventHandler io g
        /\ StepperMotorEventHandler (with_set_status io st) g
          = StepperMotorEventHandler io g).
Proof.
  split; [| split; [| split; [| split; [| split]]]]; try reflexivity.
  - intros Hc.
    rewrite (button_consume_fails io g Hc), (stepper_consume_fails io g Hc).
    repeat split.
  - intros Hc Hr. rewrite (button_read_fails io g Hc Hr). repeat split.
  - intros st. apply set_status_discarded.
Qed.

Lemma io_failure_fatal_and_atomic_witness :
  let g := with_motor true 2 initial_globals in
  globals_of (StepperMotorEventHandler io_consume_fails g) = latched g
  /\ globals_of (ButtonTimerEventHandler io_consume_fails g) = latched g
  /\ globals_of (ButtonTimerEventHandler io_read_fails g) = latched g
  /\ gpio_writes (trace_of (ButtonTimerEventHandler io_read_fails g)) = [].
Proof.
  intros g.
  destruct (io_failure_fatal_and_atomic io_consume_fails g) as [Hc _].
  destruct (io_failure_fatal_and_atomic io_read_fails g) as [_ [Hr _]].
  destruct Hc as [Hb [_ [Hs _]]]; [discriminate |].
  destruct Hr as [Hg Hw]; [reflexivity | discriminate |].
  repeat split; assumption.
Defined.

(** C8, as stated, fails for a failing line write.  With every
    [GPIO_SetValue] failing, an acknowledged tick with [isMotorTurning]
    set and [stepNumber = 0] does not set the latch, goes on to request
    the other three writes and advances [stepNumber] to 1; a successful
    poll of a pressed button does not set the latch either and sets
    [isMotorTurning]. *)
Lemma line_write_failure_counterexample :
  let g := with_motor true 0 initial_globals in
  let rs := StepperMotorEventHandler io_writes_fail g in
  let rb := ButtonTimerEventHandler io_writes_fail initial_globals in
  set_status io_writes_fail IN1 <> 0
  /\ set_status io_writes_fail greenLEDFd <> 0
  /\ terminationRequired (globals_of rs) = false
  /\ gpio_writes (trace_of rs) = step_pattern 0
  /\ stepNumber g = 0
  /\ stepNumber (globals_of rs) = 1
  /\ terminationRequired (globals_of rb) = false
  /\ isMotorTurning initial_globals = false
  /\ isMotorTurning (globals_of rb) = true.
Proof.
  cbv zeta. repeat split; discriminate.
Qed.

(** ** Frame conditions and the step-index invariant *)

Lemma stepper_frame (io : TimerIO) (g : Globals) :
  isMotorTurning (globals_of (StepperMotorEventHandler io g)) = isMotorTurning g
  /\ fd (globals_of (StepperMotorEventHandler io g)) = fd g
  /\ Forall (fun w => In (fst w) drive_lines)
            (gpio_writes (trace_of (StepperMotorEventHandler io g))).
Proof.
  open_globals g. open_io io. run_handler.
  case_test (cs =? 0); [| repeat split; constructor].
  case_test turning.
  - case_test (step =? 0); [| case_test (step =? 1);
      [| case_test (step =? 2); [| case_test (step =? 3)]]];
      case_test (wrap_int (step + 1) =? 4);
      repeat split; repeat (apply Forall_cons || apply Forall_nil);
      cbn; auto 10.
  - repeat split; repeat (apply Forall_cons || apply Forall_nil);
    cbn; auto 10.
Qed.

Lemma button_frame (io : TimerIO) (g : Globals) :
  fd (globals_of (ButtonTimerEventHandler io g)) = fd g
  /\ Forall (fun w => fst w = greenLEDFd)
            (gpio_writes (trace_of (ButtonTimerEventHandler io g))).
Proof.
  open_globals g. open_io io. run_handler.
  case_test (cs =? 0); [| repeat split; constructor].
  case_test (gs =? 0); [| repeat split; constructor].
  destruct gv; cbn; repeat split; repeat constructor.
Qed.

(** C10.  A Step Sequencer invocation leaves [isMotorTurning] unchanged
    and writes only lines among IN1..IN4, never the green LED; a Button
    Monitor invocation writes only the green LED, never one of IN1..IN4.
    This holds for every input and every state. *)
Theorem handlers_frame (io : TimerIO) (g : Globals) :
  isMotorTurning (globals_of (StepperMotorEventHandler io g)) = isMotorTurning g
  /\ Forall (fun w => In (fst w) drive_lines /\ fst w <> greenLEDFd)
            (gpio_writes (trace_of (StepperMotorEventHandler io g)))
  /\ Forall (fun w => fst w = greenLEDFd /\ ~ In (fst w) drive_lines)
            (gpio_writes (trace_of (ButtonTimerEventHandler io g))).
Proof.
  destruct (stepper_frame io g) as [Ht [_ Hs]].
  destruct (button_frame io g) as [_ Hb].
  split; [exact Ht | split].
  - eapply Forall_impl; [| exact Hs]. intros [h v] Hin. split; [exact Hin |].
    cbn in *. intros ->. intuition discriminate.
  - eapply Forall_impl; [| exact Hb]. intros [h v] Hin. split; [exact Hin |].
    cbn in *. subst h. intuition discriminate.
Qed.

Lemma stepper_step_range (io : TimerIO) (g : Globals) :
  0 <= stepNumber g <= 3 ->
  0 <= stepNumber (globals_of (StepperMotorEventHandler io g)) <= 3.
Proof.
  intros Hs.
  destruct (Z.eq_dec (consume_status io) 0) as [Hc | Hc].
  - destruct (isMotorTurning g) eqn:Ht.
    + destruct (stepper_tick_turning io g Hc Ht Hs) as [Hg _]. rewrite Hg.
      cbn. pose proof (Z.mod_pos_bound (stepNumber g + 1) 4). lia.
    + rewrite (stepper_tick_idle io g Hc Ht). exact Hs.
  - rewrite (stepper_consume_fails io g Hc). exact Hs.
Qed.

Lemma button_step_cases (io : TimerIO) (g : Globals) :
  let g' := globals_of (ButtonTimerEventHandler io g) in
  (stepNumber g' = stepNumber g /\ isMotorTurning g' = isMotorTurning g)
  \/ (stepNumber g' = stepNumber g /\ isMotorTurning g' = true)
  \/ (stepNumber g' = 0 /\ isMotorTurning g' = false).
Proof.
  cbv zeta.
  destruct (Z.eq_dec (consume_status io) 0) as [Hc | Hc].
  - destruct (Z.eq_dec (get_status io) 0) as [Hr | Hr].
    + destruct (get_value io) eqn:Hv.
      * rewrite (button_pressed io g Hc Hr Hv). right; left. split; reflexivity.
      * rewrite (button_released io g Hc Hr Hv). right; right. split; reflexivity.
    + rewrite (button_read_fails io g Hc Hr). left. split; reflexivity.
  - rewrite (button_consume_fails io g Hc). left. split; reflexivity.
Qed.

Lemma run_op_inv (op : Op) (g : Globals) :
  motor_inv g -> motor_inv (globals_of (run_op op g)).
Proof.
  intros [Hs Hz]. destruct op as [io | io |]; cbn [run_op].
  - destruct (button_step_cases io g) as [[E1 E2] | [[E1 E2] | [E1 E2]]];
      unfold motor_inv; rewrite E1, E2; split; try lia; try assumption;
      try discriminate; auto.
  - split; [apply stepper_step_range; exact Hs |].
    destruct (stepper_frame io g) as [Ht _]. rewrite Ht. intros Hf.
    destruct (Z.eq_dec (consume_status io) 0) as [Hc | Hc].
    + rewrite (stepper_tick_idle io g Hc Hf). auto.
    + rewrite (stepper_consume_fails io g Hc). auto.
  - split; assumption.
Qed.

Lemma run_ops_inv (ops : list Op) :
  forall g, motor_inv g -> motor_inv (run_ops ops g).
Proof.
  induction ops as [| op rest IH]; intros g Hg; cbn [run_ops].
  - exact Hg.
  - apply IH, run_op_inv, Hg.
Qed.

Lemma initial_inv : motor_inv initial_globals.
Proof.
  split; cbn; [lia | reflexivity].
Qed.

Lemma run_op_idle_step (op : Op) (g : Globals) :
  isMotorTurning g = false ->
  stepNumber (globals_of (run_op op g)) = stepNumber g
  \/ (exists io, op = OpButton io) /\ stepNumber (globals_of (run_op op g)) = 0.
Proof.
  intros Hf. destruct op as [io | io |]; cbn [run_op].
  - destruct (button_step_cases io g) as [[E1 _] | [[E1 _] | [E1 _]]];
      [left; exact E1 | left; exact E1 | right; split; [eauto | exact E1]].
  - left. destruct (Z.eq_dec (consume_status io) 0) as [Hc | Hc].
    + rewrite (stepper_tick_idle io g Hc Hf). reflexivity.
    + rewrite (stepper_consume_fails io g Hc). reflexivity.
  - left. reflexivity.
Qed.

(** C3.  [stepNumber] is 0 in the initial state; every operation (Button
    Monitor, Step Sequencer, termination signal, under every input) maps a
    state with [stepNumber] in 0..3 to such a state, so [stepNumber] is in
    0..3 after every sequence of operations from the initial state.  An
    operation executed while [isMotorTurning] is clear never advances
    [stepNumber]: it keeps it, or (Button Monitor only) sets it to 0; in
    the states reached from the initial state it is then already 0, so it
    is kept. *)
Theorem step_index_invariant (ops : list Op) (op : Op) (g : Globals) :
  stepNumber initial_globals = 0
  /\ (0 <= stepNumber g <= 3 -> 0 <= stepNumber (globals_of (run_op op g)) <= 3)
  /\ 0 <= stepNumber (run_ops ops initial_globals) <= 3
  /\ (isMotorTurning g = false ->
        stepNumber (globals_of (run_op op g)) = stepNumber g
        \/ stepNumber (globals_of (run_op op g)) = 0)
  /\ (isMotorTurning (run_ops ops initial_globals) = false ->
        stepNumber (globals_of (run_op op (run_ops ops initial_globals)))
          = stepNumber (run_ops ops initial_globals)).
Proof.
  pose proof (run_ops_inv ops initial_globals initial_inv) as [Hr Hz].
  split; [reflexivity | split; [| split; [exact Hr | split]]].
  - intros Hs. destruct op as [io | io |]; cbn [run_op].
    + destruct (button_step_cases io g) as [[E1 _] | [[E1 _] | [E1 _]]];
        rewrite E1; lia.
    + apply stepper_step_range; exact Hs.
    + exact Hs.
  - intros Hf. destruct (run_op_idle_step op g Hf) as [E | [_ E]]; auto.
  - intros Hf.
    destruct (run_op_idle_step op _ Hf) as [E | [_ E]]; [exact E |].
    rewrite E. symmetry. apply Hz, Hf.
Qed.

Lemma step_index_invariant_witness :
  let ops := [OpButton (io_ok GPIO_Value_Low); OpStepper (io_ok GPIO_Value_Low);
              OpStepper (io_ok GPIO_Value_Low); OpStepper (io_ok GPIO_Value_Low);
              OpButton (io_ok GPIO_Value_High)] in
  let g := with_motor false 3 initial_globals in
  0 <= stepNumber (globals_of (run_op (OpStepper (io_ok GPIO_Value_Low)) g)) <= 3
  /\ stepNumber (globals_of (run_op (OpStepper (io_ok GPIO_Value_Low))
                               (run_ops ops initial_globals)))
     = stepNumber (run_ops ops initial_globals).
Proof.
  intros ops g.
  destruct (step_index_invariant ops (OpStepper (io_ok GPIO_Value_Low)) g)
    as [_ [Hp [_ [_ Hk]]]].
  split.
  - apply Hp. cbn. lia.
  - apply Hk. reflexivity.
Defined.

(** ** Laws of commands *)

Lemma has_latch_app (t1 t2 : list Event) :
  has_latch (t1 ++ t2) = has_latch t1 || has_latch t2.
Proof. apply existsb_app. Qed.

Lemma count_dispatch_app (t1 t2 : list Event) :
  count_dispatch (t1 ++ t2) = (count_dispatch t1 + count_dispatch t2)%nat.
Proof.
  unfold count_dispatch. rewrite filter_app, length_app. reflexivity.
Qed.

Lemma acquired_app (t1 t2 : list Event) :
  acquired (t1 ++ t2) = acquired t1 ++ acquired t2.
Proof.
  induction t1 as [| e t1 IH]; [reflexivity |].
  destruct e; cbn; try exact IH.
  destruct (r <? 0); [exact IH | cbn; f_equal; exact IH].
Qed.

Lemma released_app (t1 t2 : list Event) :
  released (t1 ++ t2) = released t1 ++ released t2.
Proof.
  induction t1 as [| e t1 IH]; [reflexivity |].
  destruct e; cbn; try exact IH. f_equal; exact IH.
Qed.

Lemma after_latch_app (t1 t2 : list Event) :
  after_latch (t1 ++ t2)
  = if has_latch t1 then after_latch t1 ++ t2 else after_latch t2.
Proof.
  induction t1 as [| e t1 IH]; [reflexivity |].
  destruct e; cbn; try exact IH. reflexivity.
Qed.

Lemma after_latch_count (t : list Event) :
  (count_dispatch (after_latch t) <= count_dispatch t)%nat.
Proof.
  induction t as [| e t IH]; [apply Nat.le_refl |].
  destruct e; cbn; try exact IH; unfold count_dispatch in *; cbn; lia.
Qed.

Lemma after_latch_split (a b : list Event) :
  (count_dispatch b <= count_dispatch (after_latch (a ++ EvLatch :: b)))%nat.
Proof.
  induction a as [| e a IH]; [apply Nat.le_refl |].
  destruct e; cbn [after_latch app]; try exact IH.
  rewrite count_dispatch_app.
  change (count_dispatch (EvLatch :: b)) with (count_dispatch b). lia.
Qed.

Section EventClasses.

Variable P : Event -> bool.
Variable t : list Event.
Hypothesis Hall : forallb P t = true.

Lemma class_no_dispatch :
  (forall e, P e = true -> is_dispatch e = false) -> count_dispatch t = 0%nat.
Proof.
  intros HP. unfold count_dispatch. induction t as [| e t' IH]; [reflexivity |].
  cbn in Hall. apply andb_true_iff in Hall. destruct Hall as [He Ht].
  cbn. rewrite (HP e He). apply IH, Ht.
Qed.

Lemma class_no_latch :
  (forall e, P e = true -> is_latch e = false) -> has_latch t = false.
Proof.
  intros HP. unfold has_latch. induction t as [| e t' IH]; [reflexivity |].
  cbn in Hall. apply andb_true_iff in Hall. destruct Hall as [He Ht].
  cbn. rewrite (HP e He). apply IH, Ht.
Qed.

Lemma class_no_acquire :
  (forall e, P e = true -> is_acquire e = false) -> acquired t = [].
Proof.
  intros HP. induction t as [| e t' IH]; [reflexivity |].
  cbn in Hall. apply andb_true_iff in Hall. destruct Hall as [He Ht].
  specialize (HP e He). destruct e; try discriminate HP; cbn; apply IH, Ht.
Qed.

Lemma class_no_release :
  (forall e, P e = true -> is_close e = false) -> released t = [].
Proof.
  intros HP. induction t as [| e t' IH]; [reflexivity |].
  cbn in Hall. apply andb_true_iff in Hall. destruct Hall as [He Ht].
  specialize (HP e He). destruct e; try discriminate HP; cbn; apply IH, Ht.
Qed.

Lemma class_weaken (Q : Event -> bool) :
  (forall e, P e = true -> Q e = true) -> forallb Q t = true.
Proof.
  intros HPQ. apply forallb_forall. intros e He.
  apply HPQ. revert e He. apply forallb_forall, Hall.
Qed.

End EventClasses.

Lemma bind_run {A B} (c : Cmd A) (k : A -> Cmd B) (g : Globals) :
  bind c k g
  = (result_of (k (result_of (c g)) (globals_of (c g))),
     globals_of (k (result_of (c g)) (globals_of (c g))),
     trace_of (c g) ++ trace_of (k (result_of (c g)) (globals_of (c g)))).
Proof.
  unfold bind, result_of, globals_of, trace_of.
  destruct (c g) as [[a g1] t1]. cbn [fst snd].
  destruct (k a g1) as [[b g2] t2]. reflexivity.
Qed.

Lemma bind_result {A B} (c : Cmd A) (k : A -> Cmd B) (g : Globals) :
  result_of (bind c k g) = result_of (k (result_of (c g)) (globals_of (c g))).
Proof. rewrite bind_run. reflexivity. Qed.

Lemma bind_globals {A B} (c : Cmd A) (k : A -> Cmd B) (g : Globals) :
  globals_of (bind c k g) = globals_of (k (result_of (c g)) (globals_of (c g))).
Proof. rewrite bind_run. reflexivity. Qed.

Lemma bind_trace {A B} (c : Cmd A) (k : A -> Cmd B) (g : Globals) :
  trace_of (bind c k g)
  = trace_of (c g) ++ trace_of (k (result_of (c g)) (globals_of (c g))).
Proof. rewrite bind_run. reflexivity. Qed.

Lemma tracks_latch_bind {A B} (c : Cmd A) (k : A -> Cmd B) :
  tracks_latch c -> (forall a, tracks_latch (k a)) -> tracks_latch (bind c k).
Proof.
  intros Hc Hk g.
  rewrite bind_globals, bind_trace, has_latch_app, Hk, Hc, orb_assoc.
  reflexivity.
Qed.

Lemma emits_only_bind (P : Event -> bool) {A B} (c : Cmd A) (k : A -> Cmd B) :
  emits_only P c -> (forall a, emits_only P (k a)) -> emits_only P (bind c k).
Proof.
  intros Hc Hk g. rewrite bind_trace, forallb_app, Hk, Hc. reflexivity.
Qed.

Lemma emits_only_weaken (P Q : Event -> bool) {A} (c : Cmd A) :
  (forall e, P e = true -> Q e = true) -> emits_only P c -> emits_only Q c.
Proof.
  intros HPQ Hc g. apply (class_weaken P); [apply Hc | exact HPQ].
Qed.

Lemma tracks_latch_ret {A} (a : A) : tracks_latch (ret a).
Proof. intros g. cbn. rewrite orb_false_r. reflexivity. Qed.

Lemma tracks_latch_read {A} (f : Globals -> A) : tracks_latch (read f).
Proof. intros g. cbn. rewrite orb_false_r. reflexivity. Qed.

Lemma tracks_latch_emit (e : Event) : is_latch e = false -> tracks_latch (emit e).
Proof. intros He g. cbn. rewrite He, orb_false_r. reflexivity. Qed.

Lemma tracks_latch_assign_fd (h : Handle) (z : Z) : tracks_latch (assign_fd h z).
Proof. intros g. cbn. rewrite orb_false_r. reflexivity. Qed.

Lemma tracks_latch_assign_isMotorTurning (b : bool) :
  tracks_latch (assign_isMotorTurning b).
Proof. intros g. cbn. rewrite orb_false_r. reflexivity. Qed.

Lemma tracks_latch_assign_stepNumber (z : Z) : tracks_latch (assign_stepNumber z).
Proof. intros g. cbn. rewrite orb_false_r. reflexivity. Qed.

Lemma tracks_latch_set : tracks_latch set_terminationRequired.
Proof. intros g. cbn. rewrite orb_true_r. reflexivity. Qed.

Section EmitsOnly.

Variable P : Event -> bool.

Lemma emits_only_ret {A} (a : A) : emits_only P (ret a).
Proof. intros g. reflexivity. Qed.

Lemma emits_only_read {A} (f : Globals -> A) : emits_only P (read f).
Proof. intros g. reflexivity. Qed.

Lemma emits_only_emit (e : Event) : P e = true -> emits_only P (emit e).
Proof. intros He g. cbn. rewrite He. reflexivity. Qed.

Lemma emits_only_assign_fd (h : Handle) (z : Z) : emits_only P (assign_fd h z).
Proof. intros g. reflexivity. Qed.

Lemma emits_only_assign_isMotorTurning (b : bool) :
  emits_only P (assign_isMotorTurning b).
Proof. intros g. reflexivity. Qed.

Lemma emits_only_assign_stepNumber (z : Z) :
  emits_only P (assign_stepNumber z).
Proof. intros g. reflexivity. Qed.

Lemma emits_only_set : P EvLatch = true -> emits_only P set_terminationRequired.
Proof. intros He g. cbn. rewrite He. reflexivity. Qed.

End EmitsOnly.

Create HintDb laws.

#[export] Hint Resolve
  tracks_latch_ret tracks_latch_read tracks_latch_assign_fd
  tracks_latch_assign_isMotorTurning tracks_latch_assign_stepNumber
  tracks_latch_set
  emits_only_ret emits_only_read emits_only_assign_fd
  emits_only_assign_isMotorTurning emits_only_assign_stepNumber
  : laws.

(** Decompose a command along its sequencing and its tests. *)
Ltac law_step :=
  match goal with
  | |- tracks_latch (bind _ _) => apply tracks_latch_bind; [| intros ?]
  | |- emits_only _ (bind _ _) => apply emits_only_bind; [| intros ?]
  | |- _ (if ?b then _ else _) => destruct b
  | |- _ (let '(_, _) := ?p in _) => destruct p
  | |- _ (match ?w with WaitFailed _ => _ | _ => _ end) => destruct w
  | |- _ (match ?ed with buttonEventData => _ | _ => _ end) => destruct ed
  end.

Ltac law_leaf :=
  solve [ auto with laws
        | apply tracks_latch_emit; reflexivity
        | apply emits_only_emit; reflexivity
        | apply emits_only_set; reflexivity ].

Ltac laws := repeat law_step; try law_leaf.

Lemma handler_tracks_latch (ed : EventData) (io : TimerIO) :
  tracks_latch (eventHandler ed io).
Proof.
  destruct ed; unfold eventHandler, ButtonTimerEventHandler,
    StepperMotorEventHandler, ConsumeTimerFdEvent, GPIO_GetValue,
    GPIO_SetValue, Log_Debug; laws.
Qed.

Lemma handler_emits (ed : EventData) (io : TimerIO) :
  emits_only handler_event (eventHandler ed io).
Proof.
  destruct ed; unfold eventHandler, ButtonTimerEventHandler,
    StepperMotorEventHandler, ConsumeTimerFdEvent, GPIO_GetValue,
    GPIO_SetValue, Log_Debug; laws.
Qed.

Lemma init_tracks_latch (env : Env) : tracks_latch (InitPeripheralsAndHandlers env).
Proof.
  unfold InitPeripheralsAndHandlers, acquire, Log_Debug; laws.
Qed.

Lemma init_emits (env : Env) :
  emits_only init_event (InitPeripheralsAndHandlers env).
Proof.
  unfold InitPeripheralsAndHandlers, acquire, Log_Debug; laws.
Qed.

Lemma deliver_sigterm_tracks_latch (b : bool) : tracks_latch (deliver_sigterm b).
Proof. unfold deliver_sigterm, TerminationHandler; laws. Qed.

Lemma deliver_sigterm_emits (b : bool) : emits_only is_latch (deliver_sigterm b).
Proof. unfold deliver_sigterm, TerminationHandler; laws. Qed.

Lemma latch_is_loop_event (e : Event) : is_latch e = true -> loop_event e = true.
Proof. destruct e; cbn; congruence. Qed.

Lemma latch_is_startup_event (e : Event) :
  is_latch e = true -> startup_event e = true.
Proof. destruct e; cbn; congruence. Qed.

Lemma latch_is_no_dispatch (e : Event) :
  is_latch e = true -> is_dispatch e = false.
Proof. destruct e; cbn; congruence. Qed.

Lemma handler_event_loop (e : Event) : handler_event e = true -> loop_event e = true.
Proof. destruct e; cbn; congruence. Qed.

Lemma handler_event_quiet (e : Event) :
  handler_event e = true -> is_close e = false /\ is_acquire e = false
                            /\ is_dispatch e = false.
Proof. destruct e; cbn; intros; repeat split; congruence. Qed.

Lemma loop_body_tracks_latch (it : Iteration) : tracks_latch (loop_body it).
Proof.
  unfold loop_body, WaitForEventAndCallHandler.
  repeat law_step; try law_leaf;
    first [apply deliver_sigterm_tracks_latch | apply handler_tracks_latch].
Qed.

Lemma loop_body_emits (it : Iteration) : emits_only loop_event (loop_body it).
Proof.
  unfold loop_body, WaitForEventAndCallHandler.
  repeat law_step; try law_leaf;
    first [ apply (emits_only_weaken is_latch);
            [apply latch_is_loop_event | apply deliver_sigterm_emits]
          | apply (emits_only_weaken handler_event);
            [apply handler_event_loop | apply handler_emits] ].
Qed.

(** One turn of the loop dispatches at most one handler. *)
Lemma loop_body_one_dispatch (it : Iteration) (g : Globals) :
  (count_dispatch (trace_of (loop_body it g)) <= 1)%nat.
Proof.
  assert (Hsig : forall b g', count_dispatch (trace_of (deliver_sigterm b g')) = 0%nat).
  { intros b g'. apply (class_no_dispatch is_latch);
      [apply deliver_sigterm_emits | apply latch_is_no_dispatch]. }
  assert (Hh : forall ed io g',
             count_dispatch (trace_of (eventHandler ed io g')) = 0%nat).
  { intros ed io g'. apply (class_no_dispatch handler_event);
      [apply handler_emits | apply handler_event_quiet]. }
  unfold loop_body. rewrite bind_trace, count_dispatch_app, Hsig.
  rewrite bind_trace, count_dispatch_app.
  rewrite bind_trace, count_dispatch_app, Hsig.
  set (g1 := globals_of (deliver_sigterm (sigterm_before it) g)).
  assert (Hw : (count_dispatch
                  (trace_of (WaitForEventAndCallHandler (wait_outcome it) epollFd g1))
                <= 1)%nat).
  { destruct (wait_outcome it) as [st | | ed io]; cbn [WaitForEventAndCallHandler];
      try (cbn; lia).
    rewrite bind_trace, count_dispatch_app, bind_trace, count_dispatch_app, Hh.
    cbn. lia. }
  match goal with
  | |- context [trace_of ((if ?b then _ else _) ?g')] =>
      assert (Hi : count_dispatch
                     (trace_of ((if b then set_terminationRequired else ret tt) g'))
                   = 0%nat) by (destruct b; reflexivity)
  end.
  rewrite Hi. lia.
Qed.

(** ** Start-up *)

Ltac reduce_init :=
  cbv beta iota zeta delta
    [InitPeripheralsAndHandlers acquire bind emit assign_fd ret Log_Debug
     result_of globals_of trace_of fst snd app all_opened acquisition_order
     forallb opened_prefix acquired negb andb
     fd terminationRequired buttonState isMotorTurning stepNumber].

(** One acquisition of [InitPeripheralsAndHandlers]: the failing case ends
    the function, the other continues with the next acquisition. *)
Ltac init_case env h :=
  let E := fresh "E" in
  destruct (open_result env h <? 0) eqn:E;
  reduce_init;
  repeat (match goal with H : (_ <? 0) = _ |- _ => rewrite H end; reduce_init);
  [reflexivity |].

Ltac run_init env :=
  reduce_init;
  init_case env epollFd; init_case env button_A_GpioFd;
  init_case env buttonPollTimerFd; init_case env greenLEDFd;
  init_case env IN4; init_case env IN3; init_case env IN2; init_case env IN1;
  init_case env stepperMotorTimerFd; reflexivity.

Lemma init_result (env : Env) (g : Globals) :
  result_of (InitPeripheralsAndHandlers env g) = if all_opened env then 0 else -1.
Proof. run_init env. Qed.

Lemma init_acquired (env : Env) (g : Globals) :
  acquired (trace_of (InitPeripheralsAndHandlers env g))
  = opened_prefix env acquisition_order.
Proof. run_init env. Qed.

(** ** Run loop *)

Lemma tracks_latch_mono {A} (c : Cmd A) (g : Globals) :
  tracks_latch c -> terminationRequired g = true ->
  terminationRequired (globals_of (c g)) = true.
Proof. intros Hc Hg. rewrite Hc, Hg. reflexivity. Qed.

Lemma run_loop_latched (its : list Iteration) (g : Globals) :
  terminationRequired g = true -> run_loop its g = (true, g, []).
Proof. intros Hg. destruct its; cbn; rewrite Hg; reflexivity. Qed.

Lemma run_loop_cons (it : Iteration) (rest : list Iteration) (g : Globals) :
  terminationRequired g = false ->
  run_loop (it :: rest) g = bind (loop_body it) (fun _ => run_loop rest) g.
Proof. intros Hg. cbn. rewrite Hg. reflexivity. Qed.

Lemma run_loop_tracks_latch (its : list Iteration) : tracks_latch (run_loop its).
Proof.
  induction its as [| it rest IH]; intros g;
    destruct (terminationRequired g) eqn:Hg.
  - rewrite run_loop_latched by exact Hg. cbn. exact Hg.
  - cbn. rewrite Hg. cbn. exact Hg.
  - rewrite run_loop_latched by exact Hg. cbn. exact Hg.
  - rewrite run_loop_cons by exact Hg.
    rewrite (tracks_latch_bind (loop_body it) (fun _ => run_loop rest)
               (loop_body_tracks_latch it) (fun _ => IH) g), Hg.
    reflexivity.
Qed.

Lemma run_loop_emits (its : list Iteration) : emits_only loop_event (run_loop its).
Proof.
  induction its as [| it rest IH]; intros g;
    destruct (terminationRequired g) eqn:Hg.
  - rewrite run_loop_latched by exact Hg. reflexivity.
  - cbn. rewrite Hg. reflexivity.
  - rewrite run_loop_latched by exact Hg. reflexivity.
  - rewrite run_loop_cons by exact Hg.
    apply emits_only_bind; [apply loop_body_emits | intros _; exact IH].
Qed.

(** The loop is left exactly when the latch is set. *)
Lemma run_loop_result (its : list Iteration) :
  forall g, result_of (run_loop its g)
            = terminationRequired (globals_of (run_loop its g)).
Proof.
  induction its as [| it rest IH]; intros g;
    destruct (terminationRequired g) eqn:Hg.
  - rewrite run_loop_latched by exact Hg. cbn. congruence.
  - cbn. rewrite Hg. cbn. congruence.
  - rewrite run_loop_latched by exact Hg. cbn. congruence.
  - rewrite run_loop_cons by exact Hg. rewrite bind_result, bind_globals.
    apply IH.
Qed.

Lemma run_loop_prompt (its : list Iteration) :
  forall g, (count_dispatch (after_latch (trace_of (run_loop its g))) <= 1)%nat.
Proof.
  induction its as [| it rest IH]; intros g;
    destruct (terminationRequired g) eqn:Hg.
  - rewrite run_loop_latched by exact Hg. cbn. lia.
  - cbn. rewrite Hg. cbn. lia.
  - rewrite run_loop_latched by exact Hg. cbn. lia.
  - rewrite run_loop_cons by exact Hg. rewrite bind_trace, after_latch_app.
    destruct (has_latch (trace_of (loop_body it g))) eqn:Hl.
    + assert (H1 : terminationRequired (globals_of (loop_body it g)) = true)
        by (rewrite loop_body_tracks_latch, Hl; apply orb_true_r).
      rewrite (run_loop_latched rest _ H1). cbn [trace_of snd].
      rewrite app_nil_r.
      pose proof (after_latch_count (trace_of (loop_body it g))).
      pose proof (loop_body_one_dispatch it g). lia.
    + apply IH.
Qed.

Lemma deliver_sigterm_true (g : Globals) :
  terminationRequired (globals_of (deliver_sigterm true g)) = true.
Proof. reflexivity. Qed.

Lemma loop_body_ends_run (it : Iteration) (g : Globals) :
  ends_run it = true -> terminationRequired (globals_of (loop_body it g)) = true.
Proof.
  destruct it as [b1 w b2]. unfold ends_run, loop_body.
  cbn [sigterm_before sigterm_after wait_outcome]. intros H.
  rewrite !bind_globals.
  destruct b2; [apply deliver_sigterm_true |].
  apply tracks_latch_mono; [apply deliver_sigterm_tracks_latch |].
  destruct b1.
  - apply tracks_latch_mono.
    { destruct (_ !=? 0); auto with laws. }
    apply tracks_latch_mono; [| apply deliver_sigterm_true].
    unfold WaitForEventAndCallHandler. laws. apply handler_tracks_latch.
  - destruct w as [st | | ed io]; try discriminate H.
    cbn in H. cbn [WaitForEventAndCallHandler ret result_of fst].
    rewrite H. reflexivity.
Qed.

Lemma run_loop_exits (its : list Iteration) :
  forall g, existsb ends_run its = true -> result_of (run_loop its g) = true.
Proof.
  induction its as [| it rest IH]; intros g Hex; [discriminate Hex |].
  destruct (terminationRequired g) eqn:Hg.
  - rewrite run_loop_latched by exact Hg. reflexivity.
  - rewrite run_loop_cons, bind_result by exact Hg.
    cbn in Hex. apply orb_true_iff in Hex. destruct Hex as [He | Hr].
    + rewrite run_loop_latched; [reflexivity |].
      apply loop_body_ends_run, He.
    + apply IH, Hr.
Qed.

(** ** The phases of [main] *)

Lemma bind_assoc {A B C} (c : Cmd A) (k : A -> Cmd B) (k' : B -> Cmd C) g :
  bind (bind c k) k' g = bind c (fun a => bind (k a) k') g.
Proof.
  unfold bind. destruct (c g) as [[a g1] t1].
  destruct (k a g1) as [[b g2] t2]. destruct (k' b g2) as [[x g3] t3].
  rewrite app_assoc. reflexivity.
Qed.

Lemma bind_ext {A B} (c : Cmd A) (k k' : A -> Cmd B) g :
  (forall a g', k a g' = k' a g') -> bind c k g = bind c k' g.
Proof.
  intros H. unfold bind. destruct (c g) as [[a g1] t1]. rewrite H. reflexivity.
Qed.

Lemma main_phases (env : Env) (g : Globals) :
  main env g
  = bind (startup env) (fun _ => bind (run_loop (iterations env)) (finish env)) g.
Proof.
  unfold main, startup. symmetry.
  rewrite bind_assoc. apply bind_ext. intros _ g1.
  rewrite bind_assoc. apply bind_ext. intros r g2.
  rewrite bind_assoc. apply bind_ext. intros _ g3.
  reflexivity.
Qed.

Lemma startup_tracks_latch (env : Env) : tracks_latch (startup env).
Proof.
  unfold startup, Log_Debug. laws;
    first [apply init_tracks_latch | apply deliver_sigterm_tracks_latch].
Qed.

Lemma init_event_startup (e : Event) :
  init_event e = true -> startup_event e = true.
Proof. destruct e; cbn; congruence. Qed.

Lemma startup_emits (env : Env) : emits_only startup_event (startup env).
Proof.
  unfold startup, Log_Debug. laws;
    first [ apply (emits_only_weaken init_event);
            [apply init_event_startup | apply init_emits]
          | apply (emits_only_weaken is_latch);
            [apply latch_is_startup_event | apply deliver_sigterm_emits] ].
Qed.

Lemma init_keeps_latch (env : Env) (g : Globals) :
  terminationRequired (globals_of (InitPeripheralsAndHandlers env g))
  = terminationRequired g.
Proof.
  rewrite init_tracks_latch.
  rewrite (class_no_latch init_event).
  - apply orb_false_r.
  - apply init_emits.
  - intros e; destruct e; cbn; congruence.
Qed.

Lemma startup_latch (env : Env) (g : Globals) :
  terminationRequired (globals_of (startup env g))
  = terminationRequired g || negb (all_opened env) || sigterm_at_startup env.
Proof.
  unfold startup. rewrite !bind_globals, init_result.
  change (globals_of (Log_Debug "GPIO application starting.\n" g)) with g.
  generalize (globals_of (InitPeripheralsAndHandlers env g))
             (init_keeps_latch env g).
  intros gi Hgi. rewrite <- Hgi.
  destruct (all_opened env), (sigterm_at_startup env); cbn;
    rewrite ?orb_true_r, ?orb_false_r; reflexivity.
Qed.

Lemma startup_acquired (env : Env) (g : Globals) :
  acquired (trace_of (startup env g)) = opened_prefix env acquisition_order.
Proof.
  unfold startup. rewrite !bind_trace, !acquired_app.
  change (globals_of (Log_Debug "GPIO application starting.\n" g)) with g.
  rewrite init_acquired.
  generalize (globals_of (InitPeripheralsAndHandlers env g)). intros gi.
  destruct (_ !=? 0), (sigterm_at_startup env); cbn; apply app_nil_r.
Qed.

(** ** Shutdown *)

Lemma close_one (env : Env) (h : Handle) (name : string) (g : Globals) :
  CloseFdAndPrintError env h name g = (tt, g, close_events env g [(h, name)]).
Proof.
  unfold CloseFdAndPrintError, bind, read, emit, ret. cbn [close_events].
  destruct (fd g h <? 0); reflexivity.
Qed.

Lemma close_events_app (env : Env) (g : Globals) (l1 l2 : list (Handle * string)) :
  close_events env g (l1 ++ l2) = close_events env g l1 ++ close_events env g l2.
Proof.
  induction l1 as [| [h name] l1 IH]; [reflexivity |].
  cbn [app close_events]. destruct (fd g h <? 0); [exact IH |].
  cbn [app]. f_equal. exact IH.
Qed.

(** A release call followed by a command that starts from the same
    state. *)
Lemma close_then {A} (env : Env) (h : Handle) (name : string)
    (k : Cmd A) (g : Globals) :
  (CloseFdAndPrintError env h name ;; k) g
  = (result_of (k g), globals_of (k g),
     close_events env g [(h, name)] ++ trace_of (k g)).
Proof.
  unfold bind. rewrite close_one. destruct (k g) as [[b g2] t2]. reflexivity.
Qed.

(** [ClosePeripheralsAndHandlers] changes no variable and makes exactly
    the release attempts of [close_events] over its nine calls. *)
Lemma close_run (env : Env) (g : Globals) :
  ClosePeripheralsAndHandlers env g
  = (tt, g, EvLog "Closing file descriptors.\n"
            :: close_events env g release_calls).
Proof.
  unfold ClosePeripheralsAndHandlers.
  unfold bind at 1. unfold Log_Debug at 1. unfold emit at 1.
  rewrite !close_then, close_one.
  cbn [result_of globals_of trace_of fst snd app].
  rewrite <- !close_events_app. reflexivity.
Qed.

Lemma released_close_events (env : Env) (g : Globals) (l : list (Handle * string)) :
  released (close_events env g l) = open_handles g (map fst l).
Proof.
  unfold open_handles. induction l as [| [h name] l IH]; [reflexivity |].
  cbn [close_events map fst filter].
  destruct (fd g h <? 0); cbn [negb released]; [exact IH | f_equal; exact IH].
Qed.

Lemma close_events_class (env : Env) (g : Globals) (l : list (Handle * string)) :
  forallb finish_event (close_events env g l) = true.
Proof.
  induction l as [| [h name] l IH]; [reflexivity |].
  cbn [close_events]. destruct (fd g h <? 0); [exact IH | exact IH].
Qed.

Lemma finish_run (env : Env) (left : bool) (g : Globals) :
  finish env left g
  = if left
    then (Some 0, g,
          EvLog "Closing file descriptors.\n"
          :: close_events env g release_calls
          ++ [EvLog "Application exiting.\n"])
    else (None, g, []).
Proof.
  unfold finish. destruct left; [| reflexivity].
  unfold bind. rewrite close_run. reflexivity.
Qed.

Lemma finish_result (env : Env) (left : bool) (g : Globals) :
  result_of (finish env left g) = if left then Some 0 else None.
Proof. rewrite finish_run. destruct left; reflexivity. Qed.

Lemma finish_globals (env : Env) (left : bool) (g : Globals) :
  globals_of (finish env left g) = g.
Proof. rewrite finish_run. destruct left; reflexivity. Qed.

Lemma finish_emits (env : Env) (left : bool) (g : Globals) :
  forallb finish_event (trace_of (finish env left g)) = true.
Proof.
  rewrite finish_run. destruct left; [| reflexivity].
  cbn [trace_of snd forallb finish_event andb].
  rewrite forallb_app, close_events_class. reflexivity.
Qed.

Lemma finish_released (env : Env) (left : bool) (g : Globals) :
  released (trace_of (finish env left g))
  = if left then open_handles g release_order else [].
Proof.
  rewrite finish_run. destruct left; [| reflexivity].
  cbn [trace_of snd released]. rewrite released_app, released_close_events.
  cbn [released]. apply app_nil_r.
Qed.

Section MainRun.

Variable env : Env.
Variable g : Globals.

Lemma main_result :
  result_of (main env g)
  = if result_of (loop_run env g) then Some 0 else None.
Proof.
  rewrite main_phases, !bind_result.
  fold (loop_entry env g). fold (loop_run env g).
  apply finish_result.
Qed.

Lemma main_trace :
  trace_of (main env g)
  = trace_of (startup env g)
    ++ trace_of (loop_run env g)
    ++ trace_of (finish env (result_of (loop_run env g))
                   (globals_of (loop_run env g))).
Proof. rewrite main_phases, !bind_trace. reflexivity. Qed.

Lemma main_globals :
  terminationRequired (globals_of (main env g))
  = terminationRequired (globals_of (loop_run env g)).
Proof.
  rewrite main_phases, !bind_globals.
  fold (loop_entry env g). fold (loop_run env g).
  rewrite finish_globals. reflexivity.
Qed.

Lemma finish_silent (left : bool) (g' : Globals) :
  count_dispatch (trace_of (finish env left g')) = 0%nat
  /\ has_latch (trace_of (finish env left g')) = false
  /\ acquired (trace_of (finish env left g')) = [].
Proof.
  pose proof (finish_emits env left g') as H. split; [| split].
  - apply (class_no_dispatch finish_event); [exact H |].
    intros e; destruct e; cbn; congruence.
  - apply (class_no_latch finish_event); [exact H |].
    intros e; destruct e; cbn; congruence.
  - apply (class_no_acquire finish_event); [exact H |].
    intros e; destruct e; cbn; congruence.
Qed.

Lemma startup_quiet :
  count_dispatch (trace_of (startup env g)) = 0%nat
  /\ released (trace_of (startup env g)) = [].
Proof.
  split.
  - apply (class_no_dispatch startup_event); [apply startup_emits |].
    intros e; destruct e; cbn; congruence.
  - apply (class_no_release startup_event); [apply startup_emits |].
    intros e; destruct e; cbn; congruence.
Qed.

Lemma loop_quiet :
  released (trace_of (loop_run env g)) = []
  /\ acquired (trace_of (loop_run env g)) = [].
Proof.
  split.
  - apply (class_no_release loop_event); [apply run_loop_emits |].
    intros e; destruct e; cbn; congruence.
  - apply (class_no_acquire loop_event); [apply run_loop_emits |].
    intros e; destruct e; cbn; congruence.
Qed.

(** When the loop is left, shutdown runs (releasing the handles whose
    descriptor is open) and the exit status is 0. *)
Lemma main_left :
  result_of (loop_run env g) = true ->
  result_of (main env g) = Some 0
  /\ released (trace_of (main env g))
     = open_handles (globals_of (main env g)) release_order
  /\ acquired (trace_of (main env g)) = opened_prefix env acquisition_order.
Proof.
  intros Hl. rewrite main_result, main_trace, Hl.
  rewrite !released_app, !acquired_app, startup_acquired.
  destruct startup_quiet as [_ Hs]. destruct loop_quiet as [Hr Ha].
  destruct (finish_silent true (globals_of (loop_run env g))) as [_ [_ Hf]].
  rewrite Hs, Hr, Ha, Hf, finish_released, !app_nil_r.
  split; [reflexivity | split; [| reflexivity]].
  cbn [app]. unfold open_handles. apply filter_ext. intros h.
  rewrite main_phases, !bind_globals.
  fold (loop_entry env g). fold (loop_run env g).
  rewrite finish_globals. reflexivity.
Qed.

Lemma main_latched_at_startup :
  terminationRequired (loop_entry env g) = true ->
  result_of (loop_run env g) = true /\ trace_of (loop_run env g) = [].
Proof.
  intros H0. unfold loop_run. rewrite (run_loop_latched _ _ H0).
  split; reflexivity.
Qed.

Lemma main_prompt :
  (count_dispatch (after_latch (trace_of (main env g))) <= 1)%nat.
Proof.
  rewrite main_trace, after_latch_app.
  destruct (finish_silent (result_of (loop_run env g))
              (globals_of (loop_run env g))) as [Hf [Hfl _]].
  destruct startup_quiet as [Hs _].
  destruct (has_latch (trace_of (startup env g))) eqn:Hsl.
  - assert (H0 : terminationRequired (loop_entry env g) = true).
    { unfold loop_entry. rewrite startup_tracks_latch, Hsl. apply orb_true_r. }
    destruct (main_latched_at_startup H0) as [_ Ht]. rewrite Ht.
    cbn [app]. rewrite count_dispatch_app, Hf.
    pose proof (after_latch_count (trace_of (startup env g))). lia.
  - rewrite after_latch_app.
    destruct (has_latch (trace_of (loop_run env g))).
    + rewrite count_dispatch_app, Hf.
      pose proof (run_loop_prompt (iterations env) (loop_entry env g)) as H.
      fold (loop_run env g) in H. lia.
    + pose proof (after_latch_count
                    (trace_of (finish env (result_of (loop_run env g))
                                 (globals_of (loop_run env g))))).
      lia.
Qed.

(** A trace of [main] in which the latch is set belongs to a run that
    leaves the loop. *)
Lemma main_latch_leaves :
  has_latch (trace_of (main env g)) = true ->
  result_of (loop_run env g) = true.
Proof.
  rewrite main_trace, !has_latch_app.
  destruct (finish_silent (result_of (loop_run env g))
              (globals_of (loop_run env g))) as [_ [Hfl _]].
  rewrite Hfl, orb_false_r. intros H.
  unfold loop_run at 1. rewrite run_loop_result, run_loop_tracks_latch.
  fold (loop_run env g). unfold loop_entry. rewrite startup_tracks_latch.
  rewrite <- orb_assoc, H. apply orb_true_r.
Qed.

End MainRun.

Lemma has_latch_split (a b : list Event) : has_latch (a ++ EvLatch :: b) = true.
Proof. rewrite has_latch_app. cbn. apply orb_true_r. Qed.

(** ** Descriptors over a run *)

Ltac reduce_start :=
  cbv beta iota zeta delta
    [InitPeripheralsAndHandlers acquire bind emit assign_fd ret Log_Debug
     result_of globals_of trace_of fst snd app all_opened acquisition_order
     forallb existsb negb andb orb
     attempted attempted_prefix Handle_in output_levels pins_opened
     commanded active_lines
     timers_created first_failure opened_prefix acquired
     fd terminationRequired buttonState isMotorTurning stepNumber].

Ltac start_case env h fin :=
  let E := fresh "E" in
  destruct (open_result env h <? 0) eqn:E;
  reduce_start;
  repeat (match goal with H : (_ <? 0) = _ |- _ => rewrite H end; reduce_start);
  [solve [fin] |].

(** The ten paths through [InitPeripheralsAndHandlers]: nine early
    returns and the successful end. *)
Ltac start_paths env fin :=
  reduce_start;
  start_case env epollFd fin; start_case env button_A_GpioFd fin;
  start_case env buttonPollTimerFd fin; start_case env greenLEDFd fin;
  start_case env IN4 fin; start_case env IN3 fin; start_case env IN2 fin;
  start_case env IN1 fin; start_case env stepperMotorTimerFd fin;
  solve [fin].

Lemma init_attempted (env : Env) (g : Globals) :
  attempted (trace_of (InitPeripheralsAndHandlers env g))
  = attempted_prefix env acquisition_order.
Proof. start_paths env ltac:(reflexivity). Qed.

Lemma init_fd (env : Env) (g : Globals) (h : Handle) :
  fd (globals_of (InitPeripheralsAndHandlers env g)) h
  = if Handle_in h (attempted_prefix env acquisition_order)
    then open_result env h else fd g h.
Proof. start_paths env ltac:(destruct h; reflexivity). Qed.

Lemma init_other_globals (env : Env) (g : Globals) :
  terminationRequired (globals_of (InitPeripheralsAndHandlers env g))
    = terminationRequired g
  /\ buttonState (globals_of (InitPeripheralsAndHandlers env g)) = buttonState g
  /\ isMotorTurning (globals_of (InitPeripheralsAndHandlers env g))
    = isMotorTurning g
  /\ stepNumber (globals_of (InitPeripheralsAndHandlers env g)) = stepNumber g.
Proof. start_paths env ltac:(repeat split). Qed.

Lemma preserves_bind (I : Globals -> Prop) {A B} (c : Cmd A) (k : A -> Cmd B) :
  preserves I c -> (forall a, preserves I (k a)) -> preserves I (bind c k).
Proof.
  intros Hc Hk g Hg. rewrite bind_globals. apply Hk, Hc, Hg.
Qed.

Lemma preserves_ret (I : Globals -> Prop) {A} (a : A) : preserves I (ret a).
Proof. intros g Hg. exact Hg. Qed.

Lemma preserves_emit (I : Globals -> Prop) (e : Event) : preserves I (emit e).
Proof. intros g Hg. exact Hg. Qed.

Section Stable.

(** A property of the state that setting the latch and running a handler
    preserve is preserved by the loop and by shutdown. *)
Variable I : Globals -> Prop.
Hypothesis I_latched : forall g, I g -> I (latched g).
Hypothesis I_handler :
  forall ed io, preserves I (eventHandler ed io).

Lemma stable_set : preserves I set_terminationRequired.
Proof. intros g Hg. apply (I_latched g Hg). Qed.

Lemma stable_deliver (b : bool) : preserves I (deliver_sigterm b).
Proof.
  destruct b; [apply stable_set | apply preserves_ret].
Qed.

Lemma stable_loop_body (it : Iteration) : preserves I (loop_body it).
Proof.
  unfold loop_body, WaitForEventAndCallHandler.
  apply preserves_bind; [apply stable_deliver | intros _].
  apply preserves_bind.
  - destruct (wait_outcome it) as [st | | ed io]; try apply preserves_ret.
    apply preserves_bind; [apply preserves_emit | intros _].
    apply preserves_bind; [apply I_handler | intros _; apply preserves_ret].
  - intros r. apply preserves_bind; [| intros _; apply stable_deliver].
    destruct (r !=? 0); [apply stable_set | apply preserves_ret].
Qed.

Lemma stable_run_loop (its : list Iteration) : preserves I (run_loop its).
Proof.
  induction its as [| it rest IH]; intros g Hg;
    destruct (terminationRequired g) eqn:Hl.
  - rewrite run_loop_latched by exact Hl. exact Hg.
  - cbn. rewrite Hl. exact Hg.
  - rewrite run_loop_latched by exact Hl. exact Hg.
  - rewrite run_loop_cons by exact Hl.
    apply preserves_bind; [apply stable_loop_body | intros _; exact IH | exact Hg].
Qed.

Lemma stable_finish (env : Env) (left : bool) : preserves I (finish env left).
Proof.
  intros g Hg. rewrite finish_globals. exact Hg.
Qed.

Lemma stable_after_startup (env : Env) (g : Globals) :
  I (loop_entry env g) -> I (globals_of (main env g)).
Proof.
  intros H. rewrite main_phases, bind_globals.
  apply preserves_bind; [apply stable_run_loop | intros left; apply stable_finish |].
  exact H.
Qed.

End Stable.

Lemma startup_globals (env : Env) (g : Globals) :
  fd (loop_entry env g) = fd (globals_of (InitPeripheralsAndHandlers env g))
  /\ isMotorTurning (loop_entry env g) = isMotorTurning g
  /\ stepNumber (loop_entry env g) = stepNumber g.
Proof.
  unfold loop_entry, startup. rewrite !bind_globals.
  change (globals_of (Log_Debug "GPIO application starting.\n" g)) with g.
  destruct (init_other_globals env g) as [_ [_ [Ht Hs]]].
  rewrite <- Ht, <- Hs.
  generalize (globals_of (InitPeripheralsAndHandlers env g)). intros gi.
  destruct (_ !=? 0), (sigterm_at_startup env); repeat split.
Qed.

Lemma handler_keeps_fd (f : Handle -> Z) (ed : EventData) (io : TimerIO) :
  preserves (fun g => fd g = f) (eventHandler ed io).
Proof.
  intros g Hg. destruct ed; cbn [eventHandler].
  - destruct (button_frame io g) as [H _]. rewrite H. exact Hg.
  - destruct (stepper_frame io g) as [_ [H _]]. rewrite H. exact Hg.
Qed.

Lemma finish_tracks_latch (env : Env) (left : bool) :
  tracks_latch (finish env left).
Proof.
  intros g. rewrite finish_globals.
  destruct (finish_silent env left g) as [_ [H _]]. rewrite H.
  symmetry. apply orb_false_r.
Qed.

(** Nothing after [InitPeripheralsAndHandlers] assigns a descriptor
    variable. *)
Lemma main_fd (env : Env) (g : Globals) :
  fd (globals_of (main env g))
  = fd (globals_of (InitPeripheralsAndHandlers env g)).
Proof.
  apply (stable_after_startup
           (fun g' => fd g' = fd (globals_of (InitPeripheralsAndHandlers env g)))).
  - intros g1 Hg1. exact Hg1.
  - apply handler_keeps_fd.
  - apply startup_globals.
Qed.

(** From the static initial state a descriptor is open at the end of a
    run exactly when its acquisition succeeded. *)
Lemma open_iff_acquired (env : Env) (h : Handle) :
  negb (fd (globals_of (main env initial_globals)) h <? 0)
  = Handle_in h (opened_prefix env acquisition_order).
Proof.
  rewrite main_fd, init_fd. cbn [fd initial_globals].
  unfold acquisition_order, Handle_in.
  cbn [attempted_prefix opened_prefix].
  repeat match goal with
         | |- context [open_result env ?x <? 0] =>
             let E := fresh "E" in
             destruct (open_result env x <? 0) eqn:E
         end;
    destruct h; cbn [existsb Handle_eqb orb];
    repeat match goal with H : (_ <? 0) = _ |- _ => rewrite H end;
    reflexivity.
Qed.

Lemma released_from_initial (env : Env) :
  open_handles (globals_of (main env initial_globals)) release_order
  = acquired_in_release_order env.
Proof.
  unfold open_handles, acquired_in_release_order.
  apply filter_ext. intros h. apply open_iff_acquired.
Qed.

(** ** Process exit and shutdown *)

Lemma main_status_cases (env : Env) (g : Globals) :
  result_of (main env g) = None \/ result_of (main env g) = Some 0.
Proof.
  rewrite main_result. destruct (result_of _); [right | left]; reflexivity.
Qed.

Lemma main_exits_clean (env : Env) (g : Globals) :
  result_of (main env g) = Some 0 ->
  released (trace_of (main env g))
  = open_handles (globals_of (main env g)) release_order.
Proof.
  intros H. rewrite main_result in H.
  destruct (result_of (loop_run env g)) eqn:Hl; [| discriminate H].
  apply (main_left env g Hl).
Qed.

Lemma Handle_eqb_eq (a b : Handle) : Handle_eqb a b = true <-> a = b.
Proof.
  destruct a, b; cbn; split; intros H; try reflexivity; discriminate H.
Qed.

Lemma Handle_in_spec (h : Handle) (l : list Handle) :
  Handle_in h l = true <-> In h l.
Proof.
  unfold Handle_in. rewrite existsb_exists. split.
  - intros [x [Hx He]]. apply Handle_eqb_eq in He. subst x. exact Hx.
  - intros Hin. exists h. split; [exact Hin | apply Handle_eqb_eq; reflexivity].
Qed.

Lemma release_order_complete (h : Handle) : In h release_order.
Proof. destruct h; cbn; auto 10. Qed.

Lemma release_order_NoDup : NoDup release_order.
Proof.
  unfold release_order.
  repeat (constructor; [cbn; intuition discriminate |]). constructor.
Qed.

(** C5 (as amended).  [main] returns 0 on every path on which it returns.
    When an acquisition of [InitPeripheralsAndHandlers] fails, no later
    acquisition is attempted, the latch is set, the loop body is never
    run and no handler is ever dispatched, the release of each handle
    whose descriptor is open is attempted and the exit status is 0; run
    from the static initial state, these are exactly the handles
    acquired before the failure.  When termination is requested
    (SIGTERM, or a failing wait) the loop is left, the open handles are
    released and the exit status is 0. *)
Theorem main_exit_status (env : Env) (g : Globals) :
  (result_of (main env g) = None \/ result_of (main env g) = Some 0)
  /\ (all_opened env = false ->
        result_of (main env g) = Some 0
        /\ terminationRequired (globals_of (main env g)) = true
        /\ trace_of (loop_run env g) = []
        /\ count_dispatch (trace_of (main env g)) = 0%nat
        /\ acquired (trace_of (main env g)) = opened_prefix env acquisition_order
        /\ released (trace_of (main env g))
           = open_handles (globals_of (main env g)) release_order
        /\ released (trace_of (main env initial_globals))
           = acquired_in_release_order env)
  /\ (sigterm_at_startup env = true \/ existsb ends_run (iterations env) = true ->
        result_of (main env g) = Some 0
        /\ released (trace_of (main env g))
           = open_handles (globals_of (main env g)) release_order).
Proof.
  split; [apply main_status_cases | split].
  - intros Hop.
    assert (H0 : forall g', terminationRequired (loop_entry env g') = true).
    { intros g'. unfold loop_entry. rewrite startup_latch, Hop. cbn.
      rewrite orb_true_r. reflexivity. }
    destruct (main_latched_at_startup env g (H0 g)) as [Hl Ht].
    destruct (main_left env g Hl) as [Hr [Hrel Hacq]].
    destruct (main_latched_at_startup env initial_globals (H0 _)) as [Hl' _].
    destruct (main_left env initial_globals Hl') as [_ [Hrel' _]].
    rewrite released_from_initial in Hrel'.
    repeat split; try assumption.
    + rewrite main_globals. unfold loop_run.
      rewrite run_loop_latched by exact (H0 g). exact (H0 g).
    + rewrite main_trace, Ht. cbn [app]. rewrite count_dispatch_app.
      destruct (startup_quiet env g) as [Hs _].
      destruct (finish_silent env (result_of (loop_run env g))
                  (globals_of (loop_run env g))) as [Hf _].
      rewrite Hs, Hf. reflexivity.
  - intros Hreq.
    assert (Hl : result_of (loop_run env g) = true).
    { unfold loop_run. destruct Hreq as [Hsig | Hex].
      - rewrite run_loop_latched; [reflexivity |].
        unfold loop_entry. rewrite startup_latch, Hsig. apply orb_true_r.
      - apply run_loop_exits, Hex. }
    destruct (main_left env g Hl) as [Hr [Hrel _]]. split; assumption.
Qed.

Lemma main_exit_status_witness :
  result_of (main env_led_fails initial_globals) = Some 0
  /\ count_dispatch (trace_of (main env_led_fails initial_globals)) = 0%nat
  /\ acquired (trace_of (main env_led_fails initial_globals))
     = [epollFd; button_A_GpioFd; buttonPollTimerFd]
  /\ released (trace_of (main env_led_fails initial_globals))
     = [epollFd; buttonPollTimerFd; button_A_GpioFd]
  /\ result_of (main env_run initial_globals) = Some 0.
Proof.
  destruct (main_exit_status env_led_fails initial_globals) as [_ [Hf _]].
  destruct (main_exit_status env_run initial_globals) as [_ [_ Hr]].
  destruct Hf as [H1 [_ [_ [H2 [H3 [_ H5]]]]]]; [reflexivity |].
  destruct Hr as [H4 _]; [right; reflexivity |].
  split; [exact H1 | split; [exact H2 | split; [exact H3 | split]]];
    [exact H5 | exact H4].
Defined.

(** C5, as stated, fails: when opening the green LED fails, start-up is
    abandoned and the loop is never entered, yet [main] returns 0, not a
    non-zero status. *)
Lemma main_init_failure_status_counterexample :
  all_opened env_led_fails = false
  /\ result_of (main env_led_fails initial_globals) = Some 0
  /\ ~ (exists z, result_of (main env_led_fails initial_globals) = Some z
                  /\ z <> 0).
Proof.
  repeat split. intros [z [Hz Hnz]].
  assert (E : Some z = Some 0) by (rewrite <- Hz; reflexivity).
  inversion E. contradiction.
Qed.

(** C6 (as amended).  On leaving the loop the acquired peripherals are
    released, in the order of the calls of [ClosePeripheralsAndHandlers]:
    epoll first, then button timer, green LED, button, stepper timer,
    IN1, IN2, IN3, IN4 (not the reverse of the acquisition order).
    [ClosePeripheralsAndHandlers] makes one release call per handle;
    the release of a handle is attempted exactly when its descriptor is
    open, at most once, and whatever status the other releases report.
    In a run of [main] from the static initial state that returns, the
    handles released are exactly the handles acquired. *)
Theorem shutdown_releases_all (env : Env) (g : Globals) :
  trace_of (ClosePeripheralsAndHandlers env g)
  = EvLog "Closing file descriptors.\n" :: close_events env g release_calls
  /\ released (trace_of (ClosePeripheralsAndHandlers env g))
     = open_handles g release_order
  /\ (forall st,
        released (trace_of (ClosePeripheralsAndHandlers
                              (with_close_status env st) g))
        = released (trace_of (ClosePeripheralsAndHandlers env g)))
  /\ NoDup (released (trace_of (ClosePeripheralsAndHandlers env g)))
  /\ (result_of (main env g) = Some 0 ->
        released (trace_of (main env g))
        = open_handles (globals_of (main env g)) release_order)
  /\ (result_of (main env initial_globals) = Some 0 ->
        released (trace_of (main env initial_globals))
        = filter (fun h => Handle_in h
                             (acquired (trace_of (main env initial_globals))))
                 release_order
        /\ (forall h, In h (acquired (trace_of (main env initial_globals)))
                      <-> In h (released (trace_of (main env initial_globals))))).
Proof.
  assert (Hrel : forall env' g',
             released (trace_of (ClosePeripheralsAndHandlers env' g'))
             = open_handles g' release_order).
  { intros env' g'. rewrite close_run. cbn [trace_of snd released].
    apply (released_close_events env' g' release_calls). }
  split; [rewrite close_run; reflexivity |].
  split; [apply Hrel |].
  split; [intros st; rewrite !Hrel; reflexivity |].
  split; [rewrite Hrel; apply NoDup_filter, release_order_NoDup |].
  split; [apply main_exits_clean |].
  intros Hret. pose proof (main_exits_clean env initial_globals Hret) as Hm.
  rewrite released_from_initial in Hm.
  assert (Hacq : acquired (trace_of (main env initial_globals))
                 = opened_prefix env acquisition_order).
  { rewrite main_result in Hret.
    destruct (result_of (loop_run env initial_globals)) eqn:Hl;
      [| discriminate Hret].
    apply (main_left env initial_globals Hl). }
  rewrite Hacq, Hm. split; [reflexivity |].
  intros h. unfold acquired_in_release_order.
  rewrite filter_In, Handle_in_spec. split.
  - intros Hin. split; [apply release_order_complete | exact Hin].
  - intros [_ Hin]. exact Hin.
Qed.

Lemma shutdown_releases_all_witness :
  released (trace_of (main env_run initial_globals)) = release_order
  /\ released (trace_of (main env_led_fails initial_globals))
     = [epollFd; buttonPollTimerFd; button_A_GpioFd].
Proof.
  destruct (shutdown_releases_all env_run initial_globals)
    as [_ [_ [_ [_ [_ H]]]]].
  destruct (shutdown_releases_all env_led_fails initial_globals)
    as [_ [_ [_ [_ [_ H']]]]].
  destruct H as [H _]; [reflexivity |].
  destruct H' as [H' _]; [reflexivity |].
  split; [exact H | exact H'].
Defined.

(** C6, as stated, fails: in a run in which every acquisition succeeds,
    the releases are not made in the reverse of the acquisition order;
    the epoll handle is released first, not last, and the last release is
    a drive line. *)
Lemma release_order_counterexample :
  let acq := acquired (trace_of (main env_run initial_globals)) in
  let rel := released (trace_of (main env_run initial_globals)) in
  acq = acquisition_order
  /\ rel <> rev acq
  /\ hd_error rel = Some epollFd
  /\ hd_error (rev rel) = Some IN4.
Proof.
  cbv zeta. repeat split. discriminate.
Qed.

(** ** Termination latch *)

Lemma run_op_tracks_latch (op : Op) : tracks_latch (run_op op).
Proof.
  destruct op as [io | io |]; cbn [run_op].
  - apply (handler_tracks_latch buttonEventData).
  - apply (handler_tracks_latch motorTurnEventData).
  - apply tracks_latch_set.
Qed.

Lemma main_latch_monotone (env : Env) (g : Globals) :
  terminationRequired g = true ->
  terminationRequired (globals_of (main env g)) = true.
Proof.
  intros Hg. rewrite main_globals. unfold loop_run, loop_entry.
  apply tracks_latch_mono; [apply run_loop_tracks_latch |].
  apply tracks_latch_mono; [apply startup_tracks_latch | exact Hg].
Qed.

(** C9.  No operation clears the latch: a handler invocation, the signal
    handler, a turn of the loop and [main] as a whole all leave a set
    latch set.  The loop tests the latch before each wait: entered with
    the latch set it performs nothing.  In every run of [main], the
    events that follow an execution of [terminationRequired = true]
    contain at most one dispatch, and that run leaves the loop, releases
    the handles whose descriptor is open and returns. *)
Theorem termination_latch_monotone_and_prompt
    (env : Env) (g : Globals) (a b : list Event) :
  (forall op g', terminationRequired g' = true ->
                 terminationRequired (globals_of (run_op op g')) = true)
  /\ (forall it g', terminationRequired g' = true ->
                    terminationRequired (globals_of (loop_body it g')) = true)
  /\ (terminationRequired g = true ->
      terminationRequired (globals_of (main env g)) = true)
  /\ (forall its g', terminationRequired g' = true ->
                     run_loop its g' = (true, g', []))
  /\ (trace_of (main env g) = a ++ EvLatch :: b ->
      (count_dispatch b <= 1)%nat
      /\ result_of (main env g) = Some 0
      /\ released (trace_of (main env g))
         = open_handles (globals_of (main env g)) release_order).
Proof.
  split; [| split; [| split; [| split]]].
  - intros op g' Hg'. apply tracks_latch_mono; [apply run_op_tracks_latch | exact Hg'].
  - intros it g' Hg'.
    apply tracks_latch_mono; [apply loop_body_tracks_latch | exact Hg'].
  - apply main_latch_monotone.
  - intros its g' Hg'. apply run_loop_latched, Hg'.
  - intros Ht.
    assert (Hl : has_latch (trace_of (main env g)) = true)
      by (rewrite Ht; apply has_latch_split).
    apply main_latch_leaves in Hl.
    destruct (main_left env g Hl) as [Hr [Hrel _]].
    split; [| split; assumption].
    pose proof (main_prompt env g) as Hp. rewrite Ht in Hp.
    pose proof (after_latch_split a b). lia.
Qed.

Lemma termination_latch_monotone_and_prompt_witness :
  let t := trace_of (main env_run initial_globals) in
  nth_error t 24 = Some EvLatch
  /\ count_dispatch (firstn 24 t) = 2%nat
  /\ count_dispatch (skipn 25 t) = 1%nat
  /\ (count_dispatch (skipn 25 t) <= 1)%nat
  /\ result_of (main env_run initial_globals) = Some 0.
Proof.
  intros t.
  destruct (termination_latch_monotone_and_prompt env_run initial_globals
              (firstn 24 t) (skipn 25 t)) as [_ [_ [_ [_ H]]]].
  destruct H as [Hc [Hr _]]; [reflexivity |].
  repeat split; try assumption; reflexivity.
Defined.

(** * Further properties of the code *)

(** ** [InitPeripheralsAndHandlers] *)

Lemma init_first_failure (env : Env) (g : Globals) :
  result_of (InitPeripheralsAndHandlers env g)
    = match first_failure env acquisition_order with
      | None => 0
      | Some _ => -1
      end
  /\ attempted (trace_of (InitPeripheralsAndHandlers env g))
    = acquired (trace_of (InitPeripheralsAndHandlers env g))
      ++ match first_failure env acquisition_order with
         | None => []
         | Some h => [h]
         end.
Proof. start_paths env ltac:(split; reflexivity). Qed.

(** X1.  [InitPeripheralsAndHandlers] makes the acquisition calls in the
    order epoll, button, button timer, green LED, IN4, IN3, IN2, IN1,
    stepper timer and stops at the first call that returns a negative
    value: that call is the last one attempted and the only failed one,
    the calls before it all succeeded, and the function returns -1.  It
    returns 0 exactly when no call fails, and then all nine were made. *)
Theorem init_stops_at_first_failure (env : Env) (g : Globals) :
  let r := InitPeripheralsAndHandlers env g in
  result_of r = match first_failure env acquisition_order with
                | None => 0
                | Some _ => -1
                end
  /\ attempted (trace_of r)
     = acquired (trace_of r)
       ++ match first_failure env acquisition_order with
          | None => []
          | Some h => [h]
          end
  /\ attempted (trace_of r) = attempted_prefix env acquisition_order
  /\ acquired (trace_of r) = opened_prefix env acquisition_order
  /\ (first_failure env acquisition_order = None ->
      acquired (trace_of r) = acquisition_order).
Proof.
  cbv zeta. destruct (init_first_failure env g) as [Hr Ha].
  split; [exact Hr | split; [exact Ha | split; [apply init_attempted | split]]].
  - apply init_acquired.
  - intros Hn. rewrite Hn, app_nil_r in Ha. rewrite <- Ha, init_attempted.
    revert Hn. unfold acquisition_order. cbn [first_failure attempted_prefix].
    repeat match goal with
           | |- context [open_result env ?h <? 0] =>
               destruct (open_result env h <? 0)
           end; intros Hn; try discriminate Hn; reflexivity.
Qed.

Lemma init_stops_at_first_failure_witness :
  acquired (trace_of (InitPeripheralsAndHandlers env_run initial_globals))
  = acquisition_order
  /\ attempted (trace_of (InitPeripheralsAndHandlers env_led_fails initial_globals))
     = [epollFd; button_A_GpioFd; buttonPollTimerFd; greenLEDFd].
Proof.
  destruct (init_stops_at_first_failure env_run initial_globals)
    as [_ [_ [_ [_ H]]]].
  destruct (init_stops_at_first_failure env_led_fails initial_globals)
    as [_ [_ [H' _]]].
  split; [apply H; reflexivity | exact H'].
Defined.

(** X2.  After [InitPeripheralsAndHandlers] each descriptor variable on
    which an acquisition was attempted holds what that call returned
    (also the negative value of the failed call); the variables of the
    calls never reached keep their value; no other file-scope variable
    changes.  When the function returns 0 every descriptor variable
    holds a non-negative descriptor. *)
Theorem init_stores_descriptors (env : Env) (g : Globals) (h : Handle) :
  let g' := globals_of (InitPeripheralsAndHandlers env g) in
  fd g' h = (if Handle_in h (attempted_prefix env acquisition_order)
             then open_result env h else fd g h)
  /\ terminationRequired g' = terminationRequired g
  /\ buttonState g' = buttonState g
  /\ isMotorTurning g' = isMotorTurning g
  /\ stepNumber g' = stepNumber g
  /\ (result_of (InitPeripheralsAndHandlers env g) = 0 ->
      fd g' h = open_result env h /\ 0 <= fd g' h).
Proof.
  cbv zeta. split; [apply init_fd |].
  destruct (init_other_globals env g) as [H1 [H2 [H3 H4]]].
  repeat (split; [assumption |]).
  rewrite init_result, init_fd. unfold all_opened, acquisition_order.
  cbn [forallb attempted_prefix].
  repeat match goal with
         | |- context [open_result env ?h' <? 0] =>
             let E := fresh "E" in destruct (Z.ltb_spec (open_result env h') 0)
         end; cbn [negb andb]; intros Hr; try discriminate Hr;
    destruct h; cbn; split; (reflexivity || assumption).
Qed.

Lemma init_stores_descriptors_witness :
  fd (globals_of (InitPeripheralsAndHandlers env_run initial_globals)) IN1 = 10
  /\ fd (globals_of (InitPeripheralsAndHandlers env_led_fails initial_globals))
       greenLEDFd = -1
  /\ fd (globals_of (InitPeripheralsAndHandlers env_led_fails initial_globals))
       IN4 = -1.
Proof.
  destruct (init_stores_descriptors env_run initial_globals IN1)
    as [_ [_ [_ [_ [_ H]]]]].
  destruct (init_stores_descriptors env_led_fails initial_globals greenLEDFd)
    as [H1 _].
  destruct (init_stores_descriptors env_led_fails initial_globals IN4)
    as [H2 _].
  destruct H as [H _]; [reflexivity |].
  split; [exact H | split; [exact H1 | exact H2]].
Defined.

Ltac conf_fin :=
  repeat match goal with
         | |- _ /\ _ => split
         | |- Forall _ [] => constructor
         | |- Forall _ (_ :: _) => constructor
         | |- NoDup [] => constructor
         | |- NoDup (_ :: _) => constructor
         | |- ~ In _ _ => cbn; intuition discriminate
         | |- _ \/ _ => first [left; reflexivity | right; reflexivity]
         | |- _ = _ -> _ => let H := fresh in intros H; try discriminate H
         | |- _ = _ => reflexivity
         end.

(** X3.  On every path through [InitPeripheralsAndHandlers] each line
    opened as an output (green LED, IN4, IN3, IN2, IN1) is opened at the
    high level, the level the Step Sequencer writes to de-energise the
    motor and the Button Monitor writes to switch the LED off; no board
    pin and no line is opened twice; the only timers created are the
    button timer (1000000 ns, registered with [buttonEventData]) and the
    stepper timer (2048000 ns, registered with [motorTurnEventData]).
    When the function returns 0 all five lines and both timers exist. *)
Theorem init_opens_lines_inactive (env : Env) (g : Globals) :
  let t := trace_of (InitPeripheralsAndHandlers env g) in
  Forall (fun p => snd p = GPIO_Value_High) (output_levels t)
  /\ NoDup (map fst (output_levels t))
  /\ NoDup (pins_opened t)
  /\ Forall (fun x => x = (buttonPollTimerFd, 1000000, buttonEventData)
                      \/ x = (stepperMotorTimerFd, 2048000, motorTurnEventData))
            (timers_created t)
  /\ (result_of (InitPeripheralsAndHandlers env g) = 0 ->
      output_levels t
      = map (fun h => (h, GPIO_Value_High)) [greenLEDFd; IN4; IN3; IN2; IN1]
      /\ timers_created t
         = [(buttonPollTimerFd, 1000000, buttonEventData);
            (stepperMotorTimerFd, 2048000, motorTurnEventData)]).
Proof.
  cbv zeta. start_paths env ltac:(cbn [map fst snd]; conf_fin).
Qed.

Lemma init_opens_lines_inactive_witness :
  output_levels (trace_of (InitPeripheralsAndHandlers env_run initial_globals))
  = [(greenLEDFd, GPIO_Value_High); (IN4, GPIO_Value_High);
     (IN3, GPIO_Value_High); (IN2, GPIO_Value_High); (IN1, GPIO_Value_High)].
Proof.
  destruct (init_opens_lines_inactive env_run initial_globals)
    as [_ [_ [_ [_ H]]]].
  destruct H as [H _]; [reflexivity | exact H].
Defined.

(** ** Handlers *)

Lemma wrap_int_small (z : Z) : - 2 ^ 31 <= z < 2 ^ 31 -> wrap_int z = z.
Proof.
  intros H. unfold wrap_int. rewrite Z.mod_small; lia.
Qed.

(** X4.  The [default] branch of the Step Sequencer: with the timer
    acknowledged, [isMotorTurning] set and [stepNumber] outside 0..3 (and
    below [INT_MAX]), the handler writes no line, logs nothing and only
    increments [stepNumber] by one. *)
Theorem stepper_default_branch (io : TimerIO) (g : Globals) :
  consume_status io = 0 ->
  isMotorTurning g = true ->
  ~ (0 <= stepNumber g <= 3) ->
  - 2 ^ 31 <= stepNumber g < 2 ^ 31 - 1 ->
  StepperMotorEventHandler io g
  = (tt, with_motor true (stepNumber g + 1) g, []).
Proof.
  intros Hc Ht Hout Hint. open_globals g. open_io io. subst cs turning.
  unfold with_motor. cbn [fd terminationRequired buttonState].
  run_handler. change (0 =? 0) with true. run_handler.
  destruct (Z.eqb_spec step 0) as [E | _]; [exfalso; lia |].
  destruct (Z.eqb_spec step 1) as [E | _]; [exfalso; lia |].
  destruct (Z.eqb_spec step 2) as [E | _]; [exfalso; lia |].
  destruct (Z.eqb_spec step 3) as [E | _]; [exfalso; lia |].
  run_handler. rewrite wrap_int_small by lia.
  destruct (Z.eqb_spec (step + 1) 4) as [E | _]; [exfalso; lia |].
  reflexivity.
Qed.

Lemma stepper_default_branch_witness :
  StepperMotorEventHandler (io_ok GPIO_Value_Low)
    (with_motor true 7 initial_globals)
  = (tt, with_motor true 8 initial_globals, [])
  /\ StepperMotorEventHandler (io_ok GPIO_Value_Low)
       (with_motor true (-1) initial_globals)
     = (tt, with_motor true 0 initial_globals, []).
Proof.
  split.
  - apply (stepper_default_branch (io_ok GPIO_Value_Low)
             (with_motor true 7 initial_globals)); cbn; try reflexivity; lia.
  - apply (stepper_default_branch (io_ok GPIO_Value_Low)
             (with_motor true (-1) initial_globals)); cbn; try reflexivity; lia.
Defined.




(** What a Button Monitor invocation does to the motor state, by case. *)
Lemma button_globals (io : TimerIO) (g : Globals) :
  globals_of (ButtonTimerEventHandler io g)
  = if poll_succeeds io then
      match get_value io with
      | GPIO_Value_High => with_motor false 0 g
      | GPIO_Value_Low => with_motor true (stepNumber g) g
      end
    else latched g.
Proof.
  unfold poll_succeeds.
  destruct (Z.eqb_spec (consume_status io) 0) as [Hc | Hc]; cbn [andb].
  - destruct (Z.eqb_spec (get_status io) 0) as [Hr | Hr].
    + destruct (get_value io) eqn:Hv.
      * rewrite (button_pressed io g Hc Hr Hv). reflexivity.
      * rewrite (button_released io g Hc Hr Hv). reflexivity.
    + rewrite (button_read_fails io g Hc Hr). reflexivity.
  - rewrite (button_consume_fails io g Hc). reflexivity.
Qed.

Lemma run_op_while_turning (op : Op) (g : Globals) :
  keeps_turning op = true ->
  isMotorTurning g = true ->
  0 <= stepNumber g <= 3 ->
  isMotorTurning (globals_of (run_op op g)) = true
  /\ stepNumber (globals_of (run_op op g))
     = (stepNumber g + (if advances op then 1 else 0)) mod 4.
Proof.
  intros Hk Ht Hs. destruct op as [io | io |]; cbn [run_op advances].
  - rewrite button_globals, Z.add_0_r, Z.mod_small by lia.
    cbn [keeps_turning] in Hk. unfold successful_release in Hk.
    destruct (poll_succeeds io); cbn [andb] in Hk.
    + destruct (get_value io); [split; reflexivity | discriminate Hk].
    + split; [exact Ht | reflexivity].
  - destruct (Z.eqb_spec (consume_status io) 0) as [Hc | Hc].
    + destruct (stepper_tick_turning io g Hc Ht Hs) as [Hg _].
      rewrite Hg. split; reflexivity.
    + rewrite (stepper_consume_fails io g Hc), Z.add_0_r, Z.mod_small by lia.
      split; [exact Ht | reflexivity].
  - rewrite Z.add_0_r, Z.mod_small by lia. split; [exact Ht | reflexivity].
Qed.

(** X5.  Polling does not disturb the stepping sequence.  From a state
    with [isMotorTurning] set and [stepNumber = s] in 0..3, after any
    interleaving of operations in which no Button Monitor invocation
    samples a released button (pressed polls, failed polls, failed and
    acknowledged ticks, SIGTERM), [isMotorTurning] is still set and
    [stepNumber] is [(s + n) mod 4] where [n] counts the acknowledged
    Step Sequencer invocations. *)
Theorem polls_do_not_disturb_sequence (ops : list Op) (g : Globals) :
  forallb keeps_turning ops = true ->
  isMotorTurning g = true ->
  0 <= stepNumber g <= 3 ->
  isMotorTurning (run_ops ops g) = true
  /\ stepNumber (run_ops ops g)
     = (stepNumber g + Z.of_nat (count_advances ops)) mod 4.
Proof.
  revert g. induction ops as [| op rest IH]; intros g Hall Ht Hs.
  - cbn. rewrite Z.add_0_r, Z.mod_small by lia. split; [exact Ht | reflexivity].
  - cbn [forallb] in Hall. apply andb_true_iff in Hall. destruct Hall as [Hk Hr].
    destruct (run_op_while_turning op g Hk Ht Hs) as [Ht1 Hs1].
    assert (Hb : 0 <= stepNumber (globals_of (run_op op g)) <= 3).
    { rewrite Hs1. pose proof (Z.mod_pos_bound
        (stepNumber g + (if advances op then 1 else 0)) 4). lia. }
    destruct (IH _ Hr Ht1 Hb) as [Ht2 Hs2].
    cbn [run_ops]. split; [exact Ht2 |].
    rewrite Hs2, Hs1, Zplus_mod_idemp_l. f_equal.
    unfold count_advances. cbn [filter].
    destruct (advances op); cbn [length]; lia.
Qed.

Lemma polls_do_not_disturb_sequence_witness :
  let ops := [OpStepper (io_ok GPIO_Value_Low); OpButton (io_ok GPIO_Value_Low);
              OpStepper io_consume_fails; OpButton io_read_fails;
              OpStepper (io_ok GPIO_Value_Low); OpSigterm;
              OpStepper (io_ok GPIO_Value_Low)] in
  stepNumber (run_ops ops (with_motor true 2 initial_globals)) = 1.
Proof.
  intros ops.
  destruct (polls_do_not_disturb_sequence ops (with_motor true 2 initial_globals))
    as [_ H]; [reflexivity | reflexivity | cbn; lia |].
  exact H.
Defined.



Lemma button_led_cases (io : TimerIO) (g : Globals) :
  gpio_writes (trace_of (ButtonTimerEventHandler io g))
  = if poll_succeeds io
    then [(greenLEDFd, get_value io)]
    else [].
Proof.
  unfold poll_succeeds.
  destruct (Z.eqb_spec (consume_status io) 0) as [Hc | Hc]; cbn [andb].
  - destruct (Z.eqb_spec (get_status io) 0) as [Hr | Hr].
    + destruct (get_value io) eqn:Hv.
      * rewrite (button_pressed io g Hc Hr Hv). reflexivity.
      * rewrite (button_released io g Hc Hr Hv). reflexivity.
    + rewrite (button_read_fails io g Hc Hr). reflexivity.
  - rewrite (button_consume_fails io g Hc). reflexivity.
Qed.

(** X7.  The green LED mirrors [isMotorTurning]: a Button Monitor
    invocation whose acknowledgement and read both succeed performs
    exactly one line write, to the green LED, of the level it sampled on
    the button: low (on) when it leaves [isMotorTurning] set and high
    (off) when it leaves it clear; an invocation on which either fails
    performs no line write at all. *)
Theorem button_led_mirrors_turning (io : TimerIO) (g : Globals) :
  let r := ButtonTimerEventHandler io g in
  gpio_writes (trace_of r)
  = (if poll_succeeds io then [(greenLEDFd, get_value io)] else [])
  /\ gpio_writes (trace_of r)
     = if poll_succeeds io
       then [(greenLEDFd, if isMotorTurning (globals_of r)
                          then GPIO_Value_Low else GPIO_Value_High)]
       else [].
Proof.
  cbv zeta. split; [apply button_led_cases |]. unfold poll_succeeds.
  destruct (Z.eqb_spec (consume_status io) 0) as [Hc | Hc]; cbn [andb].
  - destruct (Z.eqb_spec (get_status io) 0) as [Hr | Hr].
    + destruct (get_value io) eqn:Hv.
      * rewrite (button_pressed io g Hc Hr Hv). reflexivity.
      * rewrite (button_released io g Hc Hr Hv). reflexivity.
    + rewrite (button_read_fails io g Hc Hr). reflexivity.
  - rewrite (button_consume_fails io g Hc). reflexivity.
Qed.

(** ** Whole runs of [main] *)

Lemma handler_motor_inv (ed : EventData) (io : TimerIO) :
  preserves motor_inv (eventHandler ed io).
Proof.
  intros g Hg. destruct ed.
  - apply (run_op_inv (OpButton io) g Hg).
  - apply (run_op_inv (OpStepper io) g Hg).
Qed.

(** X8.  The step-index invariant holds over whole runs: if on entry to
    [main] [stepNumber] is in 0..3 and is 0 when [isMotorTurning] is
    clear (as in the static initial state), the same holds when [main]
    returns and at every loop test before, for every outcome of the
    acquisitions, every sequence of timer events, read results and
    wait failures, and every delivery of SIGTERM. *)
Theorem main_keeps_step_index_in_range (env : Env) (g : Globals) :
  (motor_inv g -> motor_inv (globals_of (main env g)))
  /\ motor_inv (globals_of (main env initial_globals))
  /\ 0 <= stepNumber (globals_of (main env initial_globals)) <= 3.
Proof.
  assert (H : forall g0, motor_inv g0 -> motor_inv (globals_of (main env g0))).
  { intros g0 Hg0. apply stable_after_startup.
    - intros g1 Hg1. exact Hg1.
    - apply handler_motor_inv.
    - destruct (startup_globals env g0) as [_ [Ht Hs]].
      unfold motor_inv. rewrite Ht, Hs. exact Hg0. }
  split; [apply H | split; [apply H, initial_inv |]].
  apply (H initial_globals initial_inv).
Qed.

Lemma main_keeps_step_index_in_range_witness :
  motor_inv (globals_of (main env_run (with_motor true 3 initial_globals))).
Proof.
  destruct (main_keeps_step_index_in_range env_run
              (with_motor true 3 initial_globals)) as [H _].
  apply H. split; cbn; [lia | discriminate].
Defined.

(** X9.  After start-up nothing assigns a descriptor variable: when
    [main] returns (and at every loop test before) each variable on which
    an acquisition was attempted still holds what that call returned and
    the others hold the value they had on entry; the handlers, the loop
    and shutdown never change them (shutdown does not reset a released
    descriptor to -1). *)
Theorem descriptors_fixed_after_startup (env : Env) (g : Globals) (h : Handle) :
  fd (globals_of (main env g)) h
  = if Handle_in h (attempted_prefix env acquisition_order)
    then open_result env h else fd g h.
Proof.
  rewrite <- init_fd.
  assert (H : fd (globals_of (main env g))
              = fd (globals_of (InitPeripheralsAndHandlers env g))).
  { apply (stable_after_startup (fun g' => fd g'
             = fd (globals_of (InitPeripheralsAndHandlers env g)))).
    - intros g1 Hg1. exact Hg1.
    - apply handler_keeps_fd.
    - apply startup_globals. }
  rewrite H. reflexivity.
Qed.

Lemma gpio_writes_app (t1 t2 : list Event) :
  gpio_writes (t1 ++ t2) = gpio_writes t1 ++ gpio_writes t2.
Proof.
  induction t1 as [| e t1 IH]; [reflexivity |].
  destruct e; cbn; try exact IH. f_equal; exact IH.
Qed.

Lemma class_no_write (P : Event -> bool) (t : list Event) :
  forallb P t = true ->
  (forall e, P e = true -> handler_activity e = false) ->
  gpio_writes t = [] /\ count_dispatch t = 0%nat.
Proof.
  intros Hall HP. induction t as [| e t IH]; [split; reflexivity |].
  cbn in Hall. apply andb_true_iff in Hall. destruct Hall as [He Ht].
  specialize (HP e He). destruct (IH Ht) as [IH1 IH2].
  destruct e; try discriminate HP; split; assumption.
Qed.

Lemma startup_no_activity (e : Event) :
  startup_event e = true -> handler_activity e = false.
Proof. destruct e; cbn; congruence. Qed.

Lemma finish_no_activity (e : Event) :
  finish_event e = true -> handler_activity e = false.
Proof. destruct e; cbn; congruence. Qed.

Lemma active_lines_app (ws1 ws2 : list (Handle * GPIO_Value_Type)) :
  active_lines (ws1 ++ ws2) = active_lines ws1 ++ active_lines ws2.
Proof.
  induction ws1 as [| [h v] ws1 IH]; [reflexivity |].
  destruct v; cbn; [f_equal |]; exact IH.
Qed.

Lemma finish_no_acquire (e : Event) :
  finish_event e = true -> is_acquire e = false.
Proof. destruct e; cbn; congruence. Qed.

Lemma commanded_app (t1 t2 : list Event) :
  commanded (t1 ++ t2) = commanded t1 ++ commanded t2.
Proof.
  induction t1 as [| e t1 IH]; [reflexivity |].
  destruct e as [| | h call r | | |]; cbn [app commanded];
    try exact IH; try (f_equal; exact IH).
  destruct call; try exact IH.
  destruct (r <? 0); [exact IH | cbn [app]; f_equal; exact IH].
Qed.

Lemma class_no_command (P : Event -> bool) (t : list Event) :
  forallb P t = true ->
  (forall e, P e = true -> is_acquire e = false) ->
  (forall e, P e = true -> handler_activity e = false) ->
  commanded t = [].
Proof.
  intros Hall HA HW. induction t as [| e t IH]; [reflexivity |].
  cbn in Hall. apply andb_true_iff in Hall. destruct Hall as [He Ht].
  specialize (HA e He). specialize (HW e He).
  destruct e; try discriminate HA; try discriminate HW; cbn; apply IH, Ht.
Qed.

(** Every level commanded by [InitPeripheralsAndHandlers] is high. *)
Lemma init_commands_high (env : Env) (g : Globals) :
  active_lines (commanded (trace_of (InitPeripheralsAndHandlers env g))) = [].
Proof. start_paths env ltac:(reflexivity). Qed.

Lemma startup_commands_high (env : Env) (g : Globals) :
  active_lines (commanded (trace_of (startup env g))) = [].
Proof.
  unfold startup. rewrite !bind_trace, !commanded_app, !active_lines_app.
  change (globals_of (Log_Debug "GPIO application starting.\n" g)) with g.
  rewrite init_commands_high.
  generalize (globals_of (InitPeripheralsAndHandlers env g)). intros gi.
  destruct (_ !=? 0), (sigterm_at_startup env); reflexivity.
Qed.

(** X10.  [GPIO_SetValue] is called only from the loop: the start-up
    code of [main] makes no such call, so the line writes of a run are
    exactly those of its loop, in order.  The only levels start-up
    commands are the initial levels given to [GPIO_OpenAsOutput], and
    they are all high.  Hence in a run whose start-up fails, or that is
    entered with the latch set, no output line is ever commanded low,
    neither when it is opened nor by a write. *)
Theorem lines_written_only_by_loop (env : Env) (g : Globals) :
  gpio_writes (trace_of (main env g)) = gpio_writes (trace_of (loop_run env g))
  /\ gpio_writes (trace_of (startup env g)) = []
  /\ active_lines (commanded (trace_of (startup env g))) = []
  /\ (all_opened env = false \/ terminationRequired g = true ->
      gpio_writes (trace_of (main env g)) = []
      /\ active_lines (commanded (trace_of (main env g))) = []).
Proof.
  assert (Hs : gpio_writes (trace_of (startup env g)) = []).
  { apply (class_no_write startup_event);
      [apply startup_emits | apply startup_no_activity]. }
  assert (HF : forall left g', forallb finish_event
                                 (trace_of (finish env left g')) = true)
    by (intros; apply finish_emits).
  assert (Hm : gpio_writes (trace_of (main env g))
               = gpio_writes (trace_of (loop_run env g))).
  { rewrite main_trace, !gpio_writes_app, Hs.
    destruct (class_no_write finish_event _ (HF (result_of (loop_run env g))
                (globals_of (loop_run env g))) finish_no_activity) as [Hf _].
    rewrite Hf, app_nil_r. reflexivity. }
  split; [exact Hm | split; [exact Hs | split; [apply startup_commands_high |]]].
  intros Hcase.
  assert (H0 : terminationRequired (loop_entry env g) = true).
  { unfold loop_entry. rewrite startup_latch.
    destruct Hcase as [Ho | Hl]; [rewrite Ho | rewrite Hl]; cbn;
      rewrite ?orb_true_r; reflexivity. }
  destruct (main_latched_at_startup env g H0) as [_ Ht].
  split; [rewrite Hm, Ht; reflexivity |].
  rewrite main_trace, Ht. cbn [app].
  rewrite commanded_app, active_lines_app, startup_commands_high.
  rewrite (class_no_command finish_event _
             (HF (result_of (loop_run env g)) (globals_of (loop_run env g)))
             finish_no_acquire finish_no_activity).
  reflexivity.
Qed.

Lemma lines_written_only_by_loop_witness :
  gpio_writes (trace_of (main env_led_fails initial_globals)) = []
  /\ active_lines (commanded (trace_of (main env_led_fails initial_globals)))
     = [].
Proof.
  destruct (lines_written_only_by_loop env_led_fails initial_globals)
    as [_ [_ [_ H]]].
  apply H. left. reflexivity.
Defined.

(** X11.  How [main] treats the status of the wait.  With the latch
    clear and no signal, a non-zero status sets the latch and the loop
    is left at once, without a dispatch and whatever events would
    follow; a zero status without a dispatch (a wait cut short) changes
    nothing and the loop simply waits again. *)
Theorem wait_status_handling (rest : list Iteration) (g : Globals) :
  terminationRequired g = false ->
  (forall status, status <> 0 ->
     run_loop (quiet_turn (WaitFailed status) :: rest) g
     = (true, latched g, [EvLatch]))
  /\ run_loop (quiet_turn WaitInterrupted :: rest) g = run_loop rest g
  /\ run_loop (quiet_turn (WaitFailed 0) :: rest) g = run_loop rest g.
Proof.
  intros Hg. split; [| split].
  - intros status Hst. rewrite run_loop_cons by exact Hg.
    unfold bind, loop_body, quiet_turn. cbn -[Z.eqb run_loop].
    destruct (Z.eqb_spec status 0) as [E | _]; [contradiction |].
    cbn -[run_loop]. rewrite run_loop_latched by reflexivity. reflexivity.
  - rewrite run_loop_cons by exact Hg.
    unfold bind, loop_body, quiet_turn. cbn -[run_loop].
    destruct (run_loop rest g) as [[b g2] t2]. reflexivity.
  - rewrite run_loop_cons by exact Hg.
    unfold bind, loop_body, quiet_turn. cbn -[run_loop].
    destruct (run_loop rest g) as [[b g2] t2]. reflexivity.
Qed.

Lemma wait_status_handling_witness :
  run_loop [quiet_turn (WaitFailed (-1));
            tick motorTurnEventData (io_ok GPIO_Value_Low)] initial_globals
  = (true, latched initial_globals, [EvLatch]).
Proof.
  destruct (wait_status_handling
              [tick motorTurnEventData (io_ok GPIO_Value_Low)]
              initial_globals eq_refl) as [H _].
  apply H. discriminate.
Defined.

Lemma main_tracks_latch (env : Env) : tracks_latch (main env).
Proof.
  intros g. rewrite main_phases.
  apply tracks_latch_bind; [apply startup_tracks_latch | intros _].
  apply tracks_latch_bind; [apply run_loop_tracks_latch | intros left].
  apply finish_tracks_latch.
Qed.

(** X12.  [main] returns only through the latch.  It returns (always
    with 0) exactly when the latch is set at the end of the loop, and the
    latch is set then exactly when it was set on entry or some
    assignment [terminationRequired = true] was executed during the run;
    otherwise the program is still in the loop.  A release is attempted
    only on a returning run, and then for exactly the handles whose
    descriptor is open, in the order of the release calls. *)
Theorem main_returns_only_when_latched (env : Env) (g : Globals) :
  result_of (main env g)
  = (if terminationRequired (globals_of (main env g)) then Some 0 else None)
  /\ terminationRequired (globals_of (main env g))
     = terminationRequired g || has_latch (trace_of (main env g))
  /\ released (trace_of (main env g))
     = (if terminationRequired (globals_of (main env g))
        then open_handles (globals_of (main env g)) release_order else []).
Proof.
  assert (Hlatch : terminationRequired (globals_of (main env g))
                   = result_of (loop_run env g)).
  { rewrite main_globals. unfold loop_run. rewrite run_loop_result.
    reflexivity. }
  split; [| split].
  - rewrite Hlatch. apply main_result.
  - apply main_tracks_latch.
  - rewrite Hlatch. destruct (result_of (loop_run env g)) eqn:Hl.
    + apply (main_left env g Hl).
    + rewrite main_trace, !released_app, Hl.
      destruct (startup_quiet env g) as [_ Hs].
      destruct (loop_quiet env g) as [Hq _]. rewrite Hs, Hq. reflexivity.
Qed.

Lemma split_in_right (P : Event -> bool) (X Y a b : list Event) (e : Event) :
  forallb (fun x => negb (P x)) X = true ->
  P e = true ->
  X ++ Y = a ++ e :: b ->
  exists a', a = X ++ a' /\ Y = a' ++ e :: b.
Proof.
  revert a. induction X as [| x X IH]; intros a HX He Heq.
  - exists a. split; [reflexivity | exact Heq].
  - cbn in HX. apply andb_true_iff in HX. destruct HX as [Hx HX].
    destruct a as [| a0 a].
    + cbn in Heq. inversion Heq; subst. rewrite He in Hx. discriminate Hx.
    + cbn in Heq. inversion Heq; subst.
      destruct (IH a HX He H1) as [a' [Ha HY]].
      exists a'. split; [cbn; f_equal; exact Ha | exact HY].
Qed.

Lemma split_in_left (P : Event -> bool) (X Y a b : list Event) (e : Event) :
  forallb (fun x => negb (P x)) Y = true ->
  P e = true ->
  X ++ Y = a ++ e :: b ->
  exists b', X = a ++ e :: b' /\ b = b' ++ Y.
Proof.
  revert a. induction X as [| x X IH]; intros a HY He Heq.
  - cbn in Heq. subst Y. rewrite forallb_app in HY.
    apply andb_true_iff in HY. destruct HY as [_ HY]. cbn in HY.
    rewrite He in HY. discriminate HY.
  - destruct a as [| a0 a]; cbn in Heq; inversion Heq; subst.
    + exists X. split; reflexivity.
    + destruct (IH a HY He H1) as [b' [HX Hb]].
      exists b'. split; [cbn; f_equal; exact HX | exact Hb].
Qed.

Lemma class_excludes (P Q : Event -> bool) (t : list Event) :
  forallb P t = true ->
  (forall e, P e = true -> Q e = false) ->
  forallb (fun x => negb (Q x)) t = true.
Proof.
  intros Hall HPQ. apply (class_weaken P); [exact Hall |].
  intros e He. rewrite (HPQ e He). reflexivity.
Qed.

Lemma opened_prefix_all (env : Env) :
  all_opened env = true -> opened_prefix env acquisition_order = acquisition_order.
Proof.
  unfold all_opened, acquisition_order. cbn [forallb opened_prefix].
  repeat match goal with
         | |- context [open_result env ?h <? 0] =>
             destruct (open_result env h <? 0)
         end; cbn; congruence.
Qed.

Lemma loop_no_close (e : Event) : loop_event e = true -> is_close e = false.
Proof. destruct e; cbn; congruence. Qed.

Lemma startup_no_close (e : Event) : startup_event e = true -> is_close e = false.
Proof. destruct e; cbn; congruence. Qed.

Lemma loop_no_acquire (e : Event) : loop_event e = true -> is_acquire e = false.
Proof. destruct e; cbn; congruence. Qed.

(** X13.  Descriptors are used only while open.  In every run of
    [main], a dispatch or a line write happens only after all nine
    acquisitions have succeeded and before any release is attempted; and
    once the first release has been attempted nothing but releases and
    logging follows: no handler is dispatched, no line is written, no
    descriptor is acquired. *)
Theorem descriptors_used_only_while_open
    (env : Env) (g : Globals) (a b : list Event) (e : Event) :
  trace_of (main env g) = a ++ e :: b ->
  (handler_activity e = true ->
     all_opened env = true
     /\ acquired a = acquisition_order
     /\ released a = [])
  /\ (is_close e = true ->
     gpio_writes b = [] /\ count_dispatch b = 0%nat /\ acquired b = []).
Proof.
  intros Ht. rewrite main_trace in Ht.
  set (S := trace_of (startup env g)) in *.
  set (L := trace_of (loop_run env g)) in *.
  set (F := trace_of (finish env (result_of (loop_run env g))
                        (globals_of (loop_run env g)))) in *.
  assert (HS : forallb startup_event S = true) by apply startup_emits.
  assert (HL : forallb loop_event L = true) by apply run_loop_emits.
  assert (HF : forallb finish_event F = true) by apply finish_emits.
  split.
  - intros He.
    destruct (split_in_right handler_activity S (L ++ F) a b e)
      as [a1 [Ha HLF]]; [| exact He | exact Ht |].
    { apply (class_excludes startup_event); [exact HS | apply startup_no_activity]. }
    destruct (split_in_left handler_activity L F a1 b e)
      as [b' [HLe _]]; [| exact He | exact HLF |].
    { apply (class_excludes finish_event); [exact HF | apply finish_no_activity]. }
    assert (H0 : terminationRequired (loop_entry env g) = false).
    { destruct (terminationRequired (loop_entry env g)) eqn:H0; [| reflexivity].
      destruct (main_latched_at_startup env g H0) as [_ Hnil].
      fold L in Hnil. rewrite Hnil in HLe. destruct a1; discriminate HLe. }
    unfold loop_entry in H0. rewrite startup_latch in H0.
    apply orb_false_iff in H0. destruct H0 as [H0 _].
    apply orb_false_iff in H0. destruct H0 as [_ Hop].
    apply negb_false_iff in Hop.
    assert (Ha1 : forallb loop_event a1 = true).
    { rewrite HLe, forallb_app in HL. apply andb_true_iff in HL. apply HL. }
    split; [exact Hop |]. subst a.
    rewrite acquired_app, released_app. unfold S at 1.
    rewrite startup_acquired, (opened_prefix_all env Hop).
    rewrite (class_no_acquire loop_event a1 Ha1 loop_no_acquire), app_nil_r.
    rewrite (class_no_release startup_event S HS startup_no_close).
    rewrite (class_no_release loop_event a1 Ha1 loop_no_close).
    split; reflexivity.
  - intros He.
    destruct (split_in_right is_close S (L ++ F) a b e)
      as [a1 [_ HLF]]; [| exact He | exact Ht |].
    { apply (class_excludes startup_event); [exact HS | apply startup_no_close]. }
    destruct (split_in_right is_close L F a1 b e)
      as [a2 [_ HFe]]; [| exact He | exact HLF |].
    { apply (class_excludes loop_event); [exact HL | apply loop_no_close]. }
    assert (Hb : forallb finish_event b = true).
    { rewrite HFe, forallb_app in HF. apply andb_true_iff in HF.
      destruct HF as [_ HF]. cbn in HF. apply andb_true_iff in HF. apply HF. }
    destruct (class_no_write finish_event b Hb finish_no_activity) as [Hw Hd].
    split; [exact Hw | split; [exact Hd |]].
    apply (class_no_acquire finish_event b Hb finish_no_acquire).
Qed.

Lemma descriptors_used_only_while_open_witness :
  let t := trace_of (main env_run initial_globals) in
  acquired (firstn 17 t) = acquisition_order
  /\ released (firstn 17 t) = []
  /\ gpio_writes (skipn 33 t) = []
  /\ count_dispatch (skipn 33 t) = 0%nat.
Proof.
  intros t.
  destruct (descriptors_used_only_while_open env_run initial_globals
              (firstn 17 t) (skipn 18 t) (EvSetValue greenLEDFd GPIO_Value_Low)
              eq_refl) as [H1 _].
  destruct (descriptors_used_only_while_open env_run initial_globals
              (firstn 32 t) (skipn 33 t) (EvClose epollFd "Epoll" 0)
              eq_refl) as [_ H2].
  destruct (H1 eq_refl) as [_ [Ha Hr]].
  destruct (H2 eq_refl) as [Hw [Hd _]].
  split; [exact Ha | split; [exact Hr | split; [exact Hw | exact Hd]]].
Defined.

Lemma run_op_while_idle (op : Op) (g : Globals) :
  no_press op = true ->
  isMotorTurning g = false ->
  isMotorTurning (globals_of (run_op op g)) = false
  /\ active_lines (gpio_writes (trace_of (run_op op g))) = [].
Proof.
  intros Hn Hidle. destruct op as [io | io |]; cbn [run_op].
  - rewrite button_led_cases, button_globals.
    cbn [no_press] in Hn. unfold successful_press in Hn.
    destruct (poll_succeeds io); cbn [andb] in Hn.
    + destruct (get_value io); [discriminate Hn | split; reflexivity].
    + split; [exact Hidle | reflexivity].
  - destruct (Z.eqb_spec (consume_status io) 0) as [Hc | Hc].
    + rewrite (stepper_tick_idle io g Hc Hidle). split; [exact Hidle | reflexivity].
    + rewrite (stepper_consume_fails io g Hc). split; [exact Hidle | reflexivity].
  - split; [exact Hidle | reflexivity].
Qed.

(** X14.  The motor is energised only after a press has been sampled.
    From a state with [isMotorTurning] clear (the initial state, or any
    state after a sampled release), over any sequence of operations in
    which no Button Monitor invocation samples a pressed button,
    [isMotorTurning] stays clear and no line is ever written low: every
    tick writes IN1..IN4 high and every successful poll writes the LED
    high. *)
Theorem motor_idle_until_pressed (ops : list Op) (g : Globals) :
  isMotorTurning g = false ->
  forallb no_press ops = true ->
  isMotorTurning (run_ops ops g) = false
  /\ active_lines (gpio_writes (ops_trace ops g)) = [].
Proof.
  revert g. induction ops as [| op rest IH]; intros g Hidle Hall.
  - split; [exact Hidle | reflexivity].
  - cbn [forallb] in Hall. apply andb_true_iff in Hall. destruct Hall as [Hn Hr].
    destruct (run_op_while_idle op g Hn Hidle) as [H1 H2].
    destruct (IH _ H1 Hr) as [H3 H4].
    cbn [run_ops ops_trace]. split; [exact H3 |].
    rewrite gpio_writes_app, active_lines_app, H2, H4. reflexivity.
Qed.

Lemma motor_idle_until_pressed_witness :
  let ops := [OpStepper (io_ok GPIO_Value_High); OpButton (io_ok GPIO_Value_High);
              OpButton io_read_fails; OpStepper (io_ok GPIO_Value_Low)] in
  active_lines (gpio_writes (ops_trace ops initial_globals)) = [].
Proof.
  intros ops.
  destruct (motor_idle_until_pressed ops initial_globals) as [_ H];
    [reflexivity | reflexivity | exact H].
Defined.

Lemma run_ops_app (ops1 ops2 : list Op) (g : Globals) :
  run_ops (ops1 ++ ops2) g = run_ops ops2 (run_ops ops1 g).
Proof.
  revert g. induction ops1 as [| op ops1 IH]; intros g; [reflexivity |].
  cbn [app run_ops]. apply IH.
Qed.

Lemma loop_body_ops (it : Iteration) (g : Globals) :
  globals_of (loop_body it g) = run_ops (turn_ops it) g.
Proof.
  destruct it as [b1 w b2]. unfold turn_ops, loop_body.
  cbn [sigterm_before wait_outcome sigterm_after].
  rewrite !run_ops_app, !bind_globals.
  assert (Hd : forall b g', globals_of (deliver_sigterm b g')
                            = run_ops (if b then [OpSigterm] else []) g')
    by (intros [] g'; reflexivity).
  rewrite !Hd. f_equal.
  destruct w as [st | | [] io]; cbn [WaitForEventAndCallHandler].
  - cbn [ret result_of globals_of fst snd]. destruct (st !=? 0); reflexivity.
  - reflexivity.
  - rewrite !bind_result, !bind_globals. reflexivity.
  - rewrite !bind_result, !bind_globals. reflexivity.
Qed.

Lemma run_loop_ops (its : list Iteration) :
  forall g, globals_of (run_loop its g)
            = run_ops (concat (map turn_ops (firstn (turns_run its g) its))) g.
Proof.
  induction its as [| it rest IH]; intros g;
    destruct (terminationRequired g) eqn:Hg.
  - rewrite run_loop_latched by exact Hg. cbn. rewrite Hg. reflexivity.
  - cbn. rewrite Hg. reflexivity.
  - rewrite run_loop_latched by exact Hg. cbn. rewrite Hg. reflexivity.
  - rewrite run_loop_cons, bind_globals by exact Hg.
    cbn [turns_run]. rewrite Hg. cbn [firstn map concat].
    rewrite run_ops_app, <- loop_body_ops. apply IH.
Qed.

Lemma turns_run_bound (its : list Iteration) :
  forall g, (turns_run its g <= length its)%nat.
Proof.
  induction its as [| it rest IH]; intros g; cbn;
    destruct (terminationRequired g); cbn; try lia.
  specialize (IH (globals_of (loop_body it g))). lia.
Qed.

(** X15.  A run of [main] acts on the file-scope state as a sequence of
    handler invocations and latch settings: the state when [main]
    returns (or is still waiting) is the state at the first loop test
    transformed, turn by turn, by the operations of the turns the loop
    made: the signal handler where SIGTERM was delivered or the wait
    failed, the Button Monitor or the Step Sequencer where a timer was
    ready.  The loop makes no turn with the latch set, and shutdown
    changes no variable. *)
Theorem run_is_sequence_of_operations (env : Env) (g : Globals) :
  let n := turns_run (iterations env) (loop_entry env g) in
  globals_of (main env g)
  = run_ops (concat (map turn_ops (firstn n (iterations env))))
      (loop_entry env g)
  /\ (n <= length (iterations env))%nat
  /\ (terminationRequired (loop_entry env g) = true -> n = 0%nat).
Proof.
  cbv zeta. split; [| split].
  - rewrite <- run_loop_ops, main_phases, !bind_globals.
    fold (loop_entry env g). apply finish_globals.
  - apply turns_run_bound.
  - intros H. destruct (iterations env); cbn; rewrite H; reflexivity.
Qed.

Lemma run_is_sequence_of_operations_witness :
  turns_run (iterations env_led_fails) (loop_entry env_led_fails initial_globals)
  = 0%nat
  /\ turns_run (iterations env_run) (loop_entry env_run initial_globals) = 3%nat.
Proof.
  destruct (run_is_sequence_of_operations env_led_fails initial_globals)
    as [_ [_ H]].
  split; [apply H; reflexivity | reflexivity].
Defined.
